(** * Weighted rendezvous hashing: a shallow embedding of [rendezvous.go]

    The Go package keeps a name-sorted slice of weighted nodes behind a
    reader/writer lock and ranks the nodes for a key by the score
    [-weight / ln(mix(keyHash, nodeHash) / MaxUint64)].

    The embedding is sequential: every method runs under the ring's lock, so
    a method is a function of the ring state.  Methods that only read the
    node slice return a value; methods that run the injected hasher return
    the new ring state as well, because [computeHash] resets and feeds the
    hasher object that the ring owns.

    - [uint64] values are [Z] with the wrap-around written out ([wrap64]);
    - [float64] values are IEEE-754 binary64 numbers, [spec_float] with
      precision 53 and maximal exponent 1024;
    - [string] is a sequence of bytes compared bytewise, as in Go;
    - the standard library's [hash.Hash64], [math.Log] and [sort.Slice] are
      interfaces (type classes) with the laws their documentation gives;
      [sort.Search] is written out. *)

From Stdlib Require Import ZArith Lia Bool String Ascii.
From Stdlib Require Import Floats.SpecFloat.
From Stdlib Require Import Sorting.Permutation Sorting.Sorted.
From Equations Require Import Equations.
From stdpp Require Import base list sorting.

#[local] Open Scope string_scope.
#[local] Open Scope list_scope.
#[local] Open Scope Z_scope.

(* ===================================================================== *)
(** * Part I: definitions *)
(* ===================================================================== *)

(** ** Machine integers *)

Module U64.

Definition modulus : Z := 2 ^ 64.

(** [math.MaxUint64] *)
Definition MaxUint64 : Z := modulus - 1.

(** Reduction of an unbounded integer to its low 64 bits: what Go does to
    the result of [<<] and [*] on [uint64]. *)
Definition wrap64 (x : Z) : Z := x mod modulus.

Definition in_range (x : Z) : Prop := 0 <= x < modulus.

End U64.

(** ** Floating point *)

Module F64.

Definition prec : Z := 53.
Definition emax : Z := 1024.

(** A Go [float64]. *)
Definition float64 : Type := spec_float.

Definition pzero : float64 := S754_zero false.
Definition pinf : float64 := S754_infinity false.
Definition ninf : float64 := S754_infinity true.

(** Conversion of an integer to [float64], rounding to nearest even: Go's
    [float64(h)] for a [uint64] [h], and the value of an integer constant
    used as a [float64]. *)
Definition of_Z (z : Z) : float64 := binary_normalize prec emax z 0 false.

Definition one : float64 := of_Z 1.

Definition neg (x : float64) : float64 := SFopp x.
Definition div (x y : float64) : float64 := SFdiv prec emax x y.

(** Go's [x > y] and [x < y] on floats: false as soon as one side is NaN. *)
Definition gt (x y : float64) : bool := SFltb y x.
Definition lt (x y : float64) : bool := SFltb x y.
Definition eqb (x y : float64) : bool := SFeqb x y.

(** [0 <= x]: a zero of either sign, a positive finite number or [+Inf]. *)
Definition nonneg (x : float64) : bool := SFleb pzero x.

Definition is_nan (x : float64) : bool :=
  match x with S754_nan => true | _ => false end.

Definition is_inf (x : float64) : bool :=
  match x with S754_infinity _ => true | _ => false end.

(** A finite number strictly above zero. *)
Definition finite_pos (x : float64) : bool :=
  match x with S754_finite false _ _ => true | _ => false end.

(** A finite number strictly below zero. *)
Definition finite_neg (x : float64) : bool :=
  match x with S754_finite true _ _ => true | _ => false end.

(** [x] is not NaN and carries the sign [s]. *)
Definition signed (s : bool) (x : float64) : Prop :=
  match x with
  | S754_zero s' | S754_infinity s' | S754_finite s' _ _ => s' = s
  | S754_nan => False
  end.

End F64.

Export F64(float64).

(** ** The standard library the package calls *)

(** [hash.Hash64]: a resettable streaming hash; [hinit] is the state of a
    freshly made hasher. *)
Class Hash64 : Type := {
  hstate : Type;
  hinit : hstate;
  Reset : hstate -> hstate;
  WriteString : hstate -> string -> hstate;
  Sum64 : hstate -> Z
}.

(** [Reset] returns the hasher to its initial state whatever it has been fed
    before. *)
Class Hash64Spec (H : Hash64) : Prop := {
  Reset_initial : forall s, Reset s = hinit
}.

(** [math.Log]. *)
Class MathLog : Type := { Log : float64 -> float64 }.

(** What the text of package [math] says of [Log] (its special cases),
    that the logarithm of 1 is 0, and that the logarithm of a positive
    number below 1 is a negative number. *)
Class MathLogSpec (L : MathLog) : Prop := {
  Log_nan : Log S754_nan = S754_nan;
  Log_pinf : Log F64.pinf = F64.pinf;
  Log_zero : forall s, Log (S754_zero s) = F64.ninf;
  Log_negative : forall x, F64.lt x F64.pzero = true -> Log x = S754_nan;
  Log_one : Log F64.one = F64.pzero;
  Log_below_one : forall x,
    F64.finite_pos x = true -> F64.lt x F64.one = true ->
    F64.finite_neg (Log x) = true
}.

(** [sort.Slice] with the comparison given on the elements: the package's
    [less] closure reads only the two elements it is given. *)
Class SortSlice : Type := {
  sortSlice : forall A : Type, (A -> A -> bool) -> list A -> list A
}.
Arguments sortSlice {_ _} _ _.

(** [less] is a strict weak ordering on the elements of [l]. *)
Record StrictWeakOn {A : Type} (less : A -> A -> bool) (l : list A) : Prop := {
  swo_irrefl : forall x, In x l -> less x x = false;
  swo_trans : forall x y z, In x l -> In y l -> In z l ->
    less x y = true -> less y z = true -> less x z = true;
  swo_incomp : forall x y z, In x l -> In y l -> In z l ->
    less x y = false -> less y x = false ->
    less y z = false -> less z y = false ->
    less x z = false /\ less z x = false
}.

(** The result is in order when no later element is [less] than an earlier
    one. *)
Definition ordered_by {A : Type} (less : A -> A -> bool) (l : list A) : Prop :=
  StronglySorted (fun x y => less y x = false) l.

(** [sort.Slice] only swaps elements, and puts them in order when [less] is
    a strict weak ordering.  It is not stable. *)
Class SortSliceSpec (S : SortSlice) : Prop := {
  sortSlice_perm : forall A (less : A -> A -> bool) l,
    Permutation (sortSlice less l) l;
  sortSlice_ordered : forall A (less : A -> A -> bool) l,
    StrictWeakOn less l -> ordered_by less (sortSlice less l)
}.

(** [sort.Search(n, f)]: binary search for the smallest index in [[0, n)] at
    which [f] holds, [n] when there is none.  The loop is
    [i, j := 0, n; for i < j { h := int(uint(i+j) >> 1); if !f(h) { i = h + 1 }
    else { j = h } }; return i]. *)
Equations? search_loop (f : nat -> bool) (i j : nat) : nat by wf (j - i)%nat lt :=
  search_loop f i j with lt_dec i j := {
    | left _ =>
        let h := ((i + j) / 2)%nat in
        if negb (f h) then search_loop f (h + 1)%nat j
        else search_loop f i h
    | right _ => i
  }.
Proof.
  all: pose proof (Nat.div_mod_eq (i + j) 2) as E;
       pose proof (Nat.mod_upper_bound (i + j) 2); lia.
Qed.

Definition Search (n : nat) (f : nat -> bool) : nat := search_loop f 0 n.

(** The contents of the array under a slice [s] after
    [copy(s[dlo:dhi], s[slo:shi])]: the first [min (dhi-dlo) (shi-slo)]
    elements of the source window land at [dlo], as by [memmove]. *)
Definition copy {A : Type} (s : list A) (dlo dhi slo shi : nat) : list A :=
  let n := Nat.min (dhi - dlo) (shi - slo) in
  take dlo s ++ take n (drop slo s) ++ drop (dlo + n) s.

(** The outcome of a call that may panic. *)
Inductive result (A : Type) : Type :=
  | Ok (a : A)
  | Panic (msg : string).
Arguments Ok {A} a.
Arguments Panic {A} msg.

(** [s[:n]] for an [int] [n]: a panic below 0 and above the bound, which is
    taken to be the length (the package never asks for more). *)
Definition slice_to {A : Type} (s : list A) (n : Z) : result (list A) :=
  if (n <? 0) || (Z.of_nat (length s) <? n)
  then Panic "slice bounds out of range"
  else Ok (take (Z.to_nat n) s).

(** [hash/fnv]'s 64-bit FNV-1a, the hasher of [New]: from the offset basis,
    every byte is xored in and the sum multiplied by the FNV prime. *)
Module FNV.

Definition offset64 : Z := 14695981039346656037.
Definition prime64 : Z := 1099511628211.

Definition write_byte (h : Z) (c : ascii) : Z :=
  U64.wrap64 (Z.lxor h (Z.of_N (N_of_ascii c)) * prime64).

Fixpoint write (h : Z) (s : string) : Z :=
  match s with
  | EmptyString => h
  | String c s' => write (write_byte h c) s'
  end.

#[export] Instance New64a : Hash64 := {|
  hstate := Z;
  hinit := offset64;
  Reset := fun _ => offset64;
  WriteString := write;
  Sum64 := fun h => h
|}.

End FNV.

(** ** The package *)

(** [const defaultWeight = 1.0] *)
Definition defaultWeight : float64 := F64.of_Z 1.

(** [type Node struct { name string; hash uint64; weight float64 }] *)
Record Node : Type := mkNode {
  name : string;
  hash : Z;
  weight : float64
}.

(** [type ScoredNode struct { node *Node; score float64 }] *)
Record ScoredNode : Type := mkScoredNode {
  node : Node;
  score : float64
}.

(** The [nil] that [append(r.nodes, nil)] stores in the new last slot.  The
    two statements that follow overwrite that slot ([AddWithWeight_splice]). *)
Definition nilNode : Node := mkNode "" 0 F64.pzero.

(** [func combineHashes(a, b uint64) uint64] *)
Definition combineHashes (a b : Z) : Z :=
  let x := Z.lxor a b in
  let x := Z.lxor x (Z.shiftr x 12) in
  let x := Z.lxor x (U64.wrap64 (Z.shiftl x 25)) in
  let x := Z.lxor x (Z.shiftr x 27) in
  U64.wrap64 (x * 0x2545F4914F6CDD1D).

(** The mix function in the words of the specification: xor the inputs,
    three shift-xor rounds (right 12, left 25, right 27), then the
    multiplication by [0x2545F4914F6CDD1D], every step modulo [2^64]. *)
Definition xorshift_star_spec (a b : Z) : Z :=
  let x := Z.lxor a b mod 2 ^ 64 in
  let x := Z.lxor x (x / 2 ^ 12) mod 2 ^ 64 in
  let x := Z.lxor x (x * 2 ^ 25) mod 2 ^ 64 in
  let x := Z.lxor x (x / 2 ^ 27) mod 2 ^ 64 in
  (x * 2685821657736338717) mod 2 ^ 64.

Section Package.

Context {H : Hash64} {L : MathLog} {S : SortSlice}.

(** [type Ring struct { nodes []*Node; hash stdhash.Hash64; mutex sync.RWMutex }]:
    the node slice and the state of the hasher object. *)
Record Ring : Type := mkRing {
  nodes : list Node;
  hasher : hstate
}.

(** [func NewWithHash(hash stdhash.Hash64) *Ring] *)
Definition NewWithHash (hash : hstate) : Ring := mkRing [] hash.

(** [func (r *Ring) computeHash(name string) uint64]: the sum, and the
    ring with its hasher reset and fed. *)
Definition computeHash (nm : string) (r : Ring) : Z * Ring :=
  let h := WriteString (Reset (hasher r)) nm in
  (Sum64 h, mkRing (nodes r) h).

(** The state of the hasher after [computeHash] has run. *)
Definition fed (r : Ring) (nm : string) : hstate :=
  WriteString (Reset (hasher r)) nm.

(** [func (r *Ring) cmp(name string) func(int) bool]: [r.nodes[i].name >= name].
    [Search] calls it below [len(r.nodes)] only ([SearchFacts.search_loop_ext]). *)
Definition cmp (r : Ring) (nm : string) : nat -> bool :=
  fun i => match nodes r !! i with
           | Some n => negb (String.ltb (name n) nm)
           | None => true
           end.

(** [func computeScore(keyHash, nodeHash uint64, nodeWeight float64) float64] *)
Definition computeScore (keyHash nodeHash : Z) (nodeWeight : float64) : float64 :=
  let h := combineHashes keyHash nodeHash in
  F64.div (F64.neg nodeWeight)
          (Log (F64.div (F64.of_Z h) (F64.of_Z U64.MaxUint64))).

(** [func (r *Ring) Contains(name string) bool] *)
Definition Contains (nm : string) (r : Ring) : bool :=
  existsb (fun n => String.eqb (name n) nm) (nodes r).

(** [func (r *Ring) AddWithWeight(name string, weight float64)] *)
Definition AddWithWeight (nm : string) (w : float64) (r : Ring) : Ring :=
  let ix := Search (length (nodes r)) (cmp r nm) in
  let found :=
    match nodes r !! ix with
    | Some n => String.eqb (name n) nm
    | None => false
    end in
  if found then
    mkRing (alter (fun n => mkNode (name n) (hash n) w) ix (nodes r)) (hasher r)
  else
    let '(h, r1) := computeHash nm r in
    let n := mkNode nm h w in
    let s := nodes r1 ++ [nilNode] in
    let s := copy s (ix + 1) (length s) ix (length s) in
    mkRing (<[ix := n]> s) (hasher r1).

(** [func (r *Ring) Add(name string)] *)
Definition Add (nm : string) (r : Ring) : Ring :=
  AddWithWeight nm defaultWeight r.

(** [func (r *Ring) Remove(name string)].  Past the first test [ix] is below
    [len(r.nodes)] ([SearchFacts.Search_le]): the [None] branch is never taken. *)
Definition Remove (nm : string) (r : Ring) : Ring :=
  let ix := Search (length (nodes r)) (cmp r nm) in
  if Nat.eqb ix (length (nodes r)) then r
  else
    match nodes r !! ix with
    | Some n =>
        if String.eqb (name n) nm then
          let s := copy (nodes r) 0 ix 0 (ix + 1) in
          mkRing (take (length s - 1) s) (hasher r)
        else r
    | None => r
    end.

(** [func (r *Ring) LookupAll(key string) []string] *)
Definition LookupAll (key : string) (r : Ring) : list string * Ring :=
  let '(keyHash, r1) := computeHash key r in
  let scoredNodes :=
    map (fun n => mkScoredNode n (computeScore keyHash (hash n) (weight n)))
        (nodes r1) in
  let scoredNodes :=
    sortSlice (fun a b => F64.gt (score a) (score b)) scoredNodes in
  (map (fun sn => name (node sn)) scoredNodes, r1).

(** The ranking of a node slice for a key hash: the body of [LookupAll]
    after [computeHash]. *)
Definition ranking (keyHash : Z) (l : list Node) : list string :=
  map (fun sn => name (node sn))
    (sortSlice (fun a b => F64.gt (score a) (score b))
       (map (fun n => mkScoredNode n (computeScore keyHash (hash n) (weight n))) l)).

(** [func (r *Ring) LookupTopN(key string, n int) []string] *)
Definition LookupTopN (key : string) (n : Z) (r : Ring)
  : result (list string) * Ring :=
  let '(names, r1) := LookupAll key r in
  if Z.of_nat (length names) >=? n then (slice_to names n, r1)
  else (Ok names, r1).

(** [func (r *Ring) Lookup(key string) string] *)
Definition Lookup (key : string) (r : Ring) : result string * Ring :=
  let '(res, r1) := LookupTopN key 1 r in
  match res with
  | Ok names =>
      match names with
      | x :: _ => (Ok x, r1)
      | [] => (Ok "", r1)
      end
  | Panic msg => (Panic msg, r1)
  end.

(** [func (r *Ring) Weight(name string) float64].  As in [Remove], the
    [None] branch is never taken. *)
Definition Weight (nm : string) (r : Ring) : float64 :=
  let ix := Search (length (nodes r)) (cmp r nm) in
  if Nat.eqb ix (length (nodes r)) then F64.pzero
  else
    match nodes r !! ix with
    | Some n => weight n
    | None => F64.pzero
    end.

(** [func (r *Ring) List() []string] *)
Definition List (r : Ring) : list string := map name (nodes r).

(** [func (r *Ring) Len() int] *)
Definition Len (r : Ring) : nat := length (nodes r).

(** A call of one of the three mutating methods. *)
Inductive Call : Type :=
  | CallAdd (nm : string)
  | CallAddWithWeight (nm : string) (w : float64)
  | CallRemove (nm : string).

Definition call (c : Call) (r : Ring) : Ring :=
  match c with
  | CallAdd nm => Add nm r
  | CallAddWithWeight nm w => AddWithWeight nm w r
  | CallRemove nm => Remove nm r
  end.

(** The ring after a sequence of calls, first call first. *)
Definition run (cs : list Call) (r : Ring) : Ring :=
  fold_left (fun r c => call c r) cs r.

End Package.

Arguments Ring : clear implicits.
Arguments Ring {H}.

(** [func New() *Ring]: a ring on a fresh FNV-1a hasher. *)
Definition New : Ring (H := FNV.New64a) :=
  NewWithHash (H := FNV.New64a) (hinit (Hash64 := FNV.New64a)).

(** ** Predicates on ring states *)

(** Go's [a < b] on strings: the bytewise lexicographic order. *)
Module StrOrd.

Definition lt (a b : string) : Prop := String.ltb a b = true.

End StrOrd.

Definition node_lt (n m : Node) : Prop := String.ltb (name n) (name m) = true.

(** The node slice is strictly ascending by name. *)
Definition sorted_nodes (l : list Node) : Prop := StronglySorted node_lt l.

(** The number of nodes that bear a name. *)
Definition count_named (nm : string) (l : list Node) : nat :=
  length (List.filter (fun n => String.eqb (name n) nm) l).

(** [float64(h) / float64(math.MaxUint64)] *)
Definition normalised (h : Z) : float64 := F64.div (F64.of_Z h) (F64.of_Z U64.MaxUint64).

(** ** Calls, scores and rankings *)

(** A key of the floats whose lexicographic order is Go's [<] on the floats
    that are not NaN: the class (negative infinity, negative, zero,
    positive, positive infinity), then the exponent, then the mantissa, the
    last two negated for the negative numbers. *)
Module F64Ord.

Definition key (x : float64) : Z * Z * Z :=
  match x with
  | S754_zero _ => (0, 0, 0)
  | S754_infinity false => (2, 0, 0)
  | S754_infinity true => (-2, 0, 0)
  | S754_finite false m e => (1, e, Zpos m)
  | S754_finite true m e => (-1, - e, Zneg m)
  | S754_nan => (0, 0, 0)
  end.

Definition lex_lt (a b : Z * Z * Z) : Prop :=
  fst (fst a) < fst (fst b) \/
  (fst (fst a) = fst (fst b) /\
   (snd (fst a) < snd (fst b) \/
    (snd (fst a) = snd (fst b) /\ snd a < snd b))).

End F64Ord.

(** The name and the weight that a call gives, and whether it adds. *)
Definition call_name (c : Call) : string :=
  match c with
  | CallAdd nm | CallAddWithWeight nm _ | CallRemove nm => nm
  end.

Definition call_weight (c : Call) : float64 :=
  match c with
  | CallAddWithWeight _ w => w
  | CallAdd _ | CallRemove _ => defaultWeight
  end.

Definition is_add (c : Call) : bool :=
  match c with
  | CallRemove _ => false
  | CallAdd _ | CallAddWithWeight _ _ => true
  end.

(** The weight of the last call that names [x], if any. *)
Definition last_weight (x : string) (cs : list Call) : option float64 :=
  fold_left (fun acc c => if String.eqb (call_name c) x then Some (call_weight c) else acc)
            cs None.

(** The node of a slice that bears a name, if any (the first one). *)
Definition find_node (x : string) (l : list Node) : option Node :=
  List.find (fun n => String.eqb (name n) x) l.

(** Every weight is a finite number above 0. *)
Definition positive_weights (l : list Node) : Prop :=
  forall n, In n l -> F64.finite_pos (weight n) = true.

Section Rankings.

Context {H : Hash64} {L : MathLog} {S : SortSlice}.

(** The hash of a string on a hasher that has been reset. *)
Definition hash_of (nm : string) : Z := Sum64 (WriteString hinit nm).

(** Every node carries the hash of its name. *)
Definition well_hashed (l : list Node) : Prop :=
  forall n, In n l -> hash n = hash_of (name n).

(** The score of a node for a key hash, and the node with its score: the
    body of the first loop of [LookupAll]. *)
Definition score_for (keyHash : Z) (n : Node) : float64 :=
  computeScore keyHash (hash n) (weight n).

Definition scored (keyHash : Z) (n : Node) : ScoredNode :=
  mkScoredNode n (score_for keyHash n).

(** The [less] of [LookupAll]: [scoredNodes[i].score > scoredNodes[j].score]. *)
Definition by_score (a b : ScoredNode) : bool := F64.gt (score a) (score b).

(** The scored nodes as [sort.Slice] leaves them in [LookupAll]. *)
Definition ranked (keyHash : Z) (l : list Node) : list ScoredNode :=
  sortSlice by_score (map (scored keyHash) l).

(** [x] is in the slice and scores above every node of another name. *)
Definition strict_top (keyHash : Z) (x : Node) (l : list Node) : Prop :=
  In x l /\
  forall n, In n l -> name n <> name x ->
    F64.gt (score_for keyHash x) (score_for keyHash n) = true.

End Rankings.

(** ** Lookups that overlap *)

(** [LookupAll] holds the read lock only ([r.mutex.RLock()]), which any
    number of readers hold together.  What a reader shares with the others
    is the ring's one hasher, on which [computeHash] makes three calls:
    [r.hash.Reset()], [io.WriteString(r.hash, name)] and [r.hash.Sum64()].
    The rest of [LookupAll] reads the node slice, which no writer changes
    while a read lock is held, and the reader's own locals.  A reader is
    where it stands in [computeHash]; a step is one call on the hasher, and
    the last one carries the rest of the body. *)
Inductive Reader : Type :=
  | AtReset (key : string)
  | AtWriteString (key : string)
  | AtSum64
  | Returned (names : list string).

(** Which of two readers makes the next step. *)
Inductive Turn : Type :=
  | First
  | Second.

Section Readers.

Context {H : Hash64} {L : MathLog} {S : SortSlice}.

(** The hasher that two readers share, and the two readers. *)
Record Readers : Type := mkReaders {
  shared : hstate;
  reader1 : Reader;
  reader2 : Reader
}.

Definition reader_step (l : list Node) (h : hstate) (t : Reader) : hstate * Reader :=
  match t with
  | AtReset key => (Reset h, AtWriteString key)
  | AtWriteString key => (WriteString h key, AtSum64)
  | AtSum64 => (h, Returned (ranking (Sum64 h) l))
  | Returned names => (h, Returned names)
  end.

Definition readers_step (l : list Node) (s : Readers) (t : Turn) : Readers :=
  match t with
  | First =>
      let '(h, t1) := reader_step l (shared s) (reader1 s) in
      mkReaders h t1 (reader2 s)
  | Second =>
      let '(h, t2) := reader_step l (shared s) (reader2 s) in
      mkReaders h (reader1 s) t2
  end.

(** [LookupAll key1] and [LookupAll key2] called on the ring [r] by two
    goroutines, their calls on the hasher in the order of the schedule. *)
Definition overlap (r : Ring) (key1 key2 : string) (schedule : list Turn) : Readers :=
  fold_left (readers_step (nodes r)) schedule
            (mkReaders (hasher r) (AtReset key1) (AtReset key2)).

(** The first reader runs alone. *)
Definition alone : list Turn := [First; First; First].

(** The second reader resets and feeds the hasher between the first
    reader's [io.WriteString] and its [Sum64]. *)
Definition interleaved : list Turn := [First; First; Second; Second; First; Second].

End Readers.

(** ** Instances to run the package on *)

(** Insertion sort as Go writes it ([for i := a+1; i < b; i++ { for j := i;
    j > a && less(j, j-1); j-- { swap(j, j-1) } }]), the sort that
    [sort.Slice] runs on a short slice.  The sorted prefix is kept reversed,
    so that the element that moves left meets its neighbours in order. *)
Module InsertionSort.

Section Sort.
Context {A : Type} (less : A -> A -> bool).

(** [x] moves left past every element it is [less] than. *)
Fixpoint sink (x : A) (rprefix : list A) : list A :=
  match rprefix with
  | [] => [x]
  | y :: rest => if less x y then y :: sink x rest else x :: y :: rest
  end.

Definition sort (l : list A) : list A :=
  rev (fold_left (fun rprefix x => sink x rprefix) l []).

(** The reversed prefix: no element is less than one that comes after it
    (one that stood before it in the slice). *)
Definition rsorted (rp : list A) : Prop :=
  StronglySorted (fun a b => less a b = false) rp.

End Sort.

#[export] Instance sorter : SortSlice := {| sortSlice := @sort |}.

End InsertionSort.

(** A stand-in for [math.Log] that has its special cases and its sign, and
    nothing more of its values: [-1] below one, [0] at one, [1] above. *)
Module SignLog.

Definition log (x : float64) : float64 :=
  match x with
  | S754_nan => S754_nan
  | S754_infinity false => F64.pinf
  | S754_infinity true => S754_nan
  | S754_zero _ => F64.ninf
  | S754_finite true _ _ => S754_nan
  | S754_finite false _ _ =>
      if F64.lt x F64.one then F64.neg F64.one
      else if F64.eqb x F64.one then F64.pzero
      else F64.one
  end.

#[export] Instance mathlog : MathLog := {| Log := log |}.

End SignLog.

(** ** Sample rings and values *)

Module Samples.

Import FNV.

(** The ring of [TestRing_Remove]. *)
Definition ring_abc : Ring := Add "c" (Add "b" (Add "a" New)).

(** The ring of [TestRing_LookupTopN]. *)
Definition ring_abcde : Ring := Add "e" (Add "d" (Add "c" (Add "b" (Add "a" New)))).

(** 1.5 and 2.0 *)
Definition w15 : float64 := F64.div (F64.of_Z 3) (F64.of_Z 2).
Definition w2 : float64 := F64.of_Z 2.

Definition node_a : Node := mkNode "a" (write offset64 "a") defaultWeight.
Definition node_b2 : Node := mkNode "b" (write offset64 "b") w2.

(** The ring of a with weight 1 and b with weight 2. *)
Definition ring_a1_b2 : Ring := AddWithWeight "b" w2 (Add "a" New).

(** The ring of a with weight 0 and b with weight [+Inf]. *)
Definition ring_a0_binf : Ring :=
  AddWithWeight "b" F64.pinf (AddWithWeight "a" F64.pzero New).

(** A key hash that combines with the node hash 0 into [2^64 - 1]. *)
Definition key_to_max : Z := 12165231662994148584.

Definition node_a2 : Node := mkNode "a" (write offset64 "a") w2.
Definition node_b : Node := mkNode "b" (write offset64 "b") defaultWeight.
Definition node_c : Node := mkNode "c" (write offset64 "c") defaultWeight.

(** The ring of a with weight 2 and b with weight 1. *)
Definition ring_a2_b1 : Ring := Add "b" (AddWithWeight "a" w2 New).

(** Calls that build the ring of a (1) and b (2), in two orders. *)
Definition calls_a_b2 : list Call := [CallAdd "a"; CallAddWithWeight "b" w2].
Definition calls_b_a_b2 : list Call :=
  [CallAddWithWeight "b" w15; CallAdd "a"; CallAddWithWeight "b" w2].

End Samples.

(* ===================================================================== *)
(** * Part II: properties *)
(* ===================================================================== *)

(** ** 64-bit arithmetic *)

Module U64Facts.

Import U64.

Lemma wrap64_range x : in_range (wrap64 x).
Proof. apply Z.mod_pos_bound. reflexivity. Qed.

Lemma wrap64_small x : in_range x -> wrap64 x = x.
Proof. intros Hx. apply Z.mod_small. exact Hx. Qed.

Lemma wrap64_lxor x y :
  wrap64 (Z.lxor x y) = Z.lxor (wrap64 x) (wrap64 y).
Proof.
  unfold wrap64, modulus. apply Z.bits_inj'. intros n Hn.
  rewrite Z.lxor_spec.
  destruct (Z.lt_ge_cases n 64) as [Hlt | Hge].
  - rewrite !Z.mod_pow2_bits_low by lia. now rewrite Z.lxor_spec.
  - rewrite !Z.mod_pow2_bits_high by lia. reflexivity.
Qed.

Lemma lxor_range x y : in_range x -> in_range y -> in_range (Z.lxor x y).
Proof.
  intros Hx Hy.
  rewrite <- (wrap64_small x Hx), <- (wrap64_small y Hy), <- wrap64_lxor.
  apply wrap64_range.
Qed.

Lemma shiftr_range x n : 0 <= n -> in_range x -> in_range (Z.shiftr x n).
Proof.
  unfold in_range. intros Hn [Hlo Hhi]. rewrite Z.shiftr_div_pow2 by lia.
  assert (0 < 2 ^ n) as Hp by (apply Z.pow_pos_nonneg; lia).
  split.
  - apply Z.div_pos; lia.
  - apply Z.le_lt_trans with x; [ | lia].
    apply Z.div_le_upper_bound; [exact Hp | nia].
Qed.

End U64Facts.

(** C7.  On every pair of 64-bit values the mix function of the source
    is the xorshift* function of the specification (xor, the three shift-xor
    rounds right 12, left 25, right 27, the multiplication by
    [0x2545F4914F6CDD1D], all modulo [2^64]), and its value is again a
    64-bit integer: a function of integers, with no floating-point part. *)
Theorem combineHashes_xorshift_star (a b : Z) :
  U64.in_range a -> U64.in_range b ->
  combineHashes a b = xorshift_star_spec a b /\
  U64.in_range (combineHashes a b).
Proof.
  intros Ha Hb. split; [ | apply U64Facts.wrap64_range].
  unfold combineHashes, xorshift_star_spec.
  change (2 ^ 64) with U64.modulus.
  fold (U64.wrap64 (Z.lxor a b)).
  pose proof (U64Facts.lxor_range a b Ha Hb) as H1.
  rewrite (U64Facts.wrap64_small _ H1).
  set (x1 := Z.lxor a b) in *.
  rewrite <- (Z.shiftr_div_pow2 x1 12) by lia.
  pose proof (U64Facts.lxor_range _ _ H1 (U64Facts.shiftr_range x1 12 ltac:(lia) H1)) as H2.
  fold (U64.wrap64 (Z.lxor x1 (Z.shiftr x1 12))).
  rewrite (U64Facts.wrap64_small _ H2).
  set (x2 := Z.lxor x1 (Z.shiftr x1 12)) in *.
  rewrite <- (Z.shiftl_mul_pow2 x2 25) by lia.
  fold (U64.wrap64 (Z.lxor x2 (Z.shiftl x2 25))).
  rewrite U64Facts.wrap64_lxor, (U64Facts.wrap64_small x2 H2).
  pose proof (U64Facts.lxor_range _ _ H2 (U64Facts.wrap64_range (Z.shiftl x2 25))) as H3.
  set (x3 := Z.lxor x2 (U64.wrap64 (Z.shiftl x2 25))) in *.
  rewrite <- (Z.shiftr_div_pow2 x3 27) by lia.
  pose proof (U64Facts.lxor_range _ _ H3 (U64Facts.shiftr_range x3 27 ltac:(lia) H3)) as H4.
  fold (U64.wrap64 (Z.lxor x3 (Z.shiftr x3 27))).
  rewrite (U64Facts.wrap64_small _ H4).
  reflexivity.
Qed.

Lemma combineHashes_xorshift_star_witness :
  combineHashes 12345678901234567890 42 = xorshift_star_spec 12345678901234567890 42 /\
  U64.in_range (combineHashes 12345678901234567890 42).
Proof.
  apply (combineHashes_xorshift_star 12345678901234567890 42);
    unfold U64.in_range, U64.modulus; lia.
Defined.

(** ** Binary search *)

Module SearchFacts.

#[local] Open Scope nat_scope.

Lemma half_between i j : i < j -> i <= (i + j) / 2 < j.
Proof.
  intros Hij. pose proof (Nat.div_mod_eq (i + j) 2).
  pose proof (Nat.mod_upper_bound (i + j) 2). lia.
Qed.

(** The loop stays between its two bounds: it terminates with an index
    of the slice, or its length. *)
Lemma search_loop_bounds f i j : i <= j -> i <= search_loop f i j <= j.
Proof.
  funelim (search_loop f i j); intros Hij; [ | lia].
  pose proof (half_between i j l) as Hh. clear Heqcall.
  set (h := (i + j) / 2) in *. clearbody h.
  destruct (negb (f h)).
  - assert (h + 1 <= j) as Hp by lia. specialize (H Hp). lia.
  - assert (i <= h) as Hp by lia. specialize (H0 Hp). lia.
Qed.

(** Only the values of [f] between the bounds are read. *)
Lemma search_loop_ext f g i j :
  (forall k, i <= k < j -> f k = g k) ->
  search_loop f i j = search_loop g i j.
Proof.
  revert g. funelim (search_loop f i j); intros g Hfg.
  - rewrite (search_loop_equation_1 g i j), Heq.
    unfold search_loop_unfold_clause_1. cbv zeta.
    pose proof (half_between i j l) as Hh. clear Heqcall.
    set (h := (i + j) / 2) in *. clearbody h.
    rewrite <- Hfg by lia.
    destruct (negb (f h)).
    + apply H. intros k Hk. apply Hfg. lia.
    + apply H0. intros k Hk. apply Hfg. lia.
  - rewrite (search_loop_equation_1 g i j), Heq. reflexivity.
Qed.

(** On a predicate that, below [n], stays true once it is true, the loop
    keeps "false to the left of [i], true from [j] on" and ends on the
    partition point. *)
Lemma search_loop_partition f n i j :
  (forall a b, a <= b < n -> f a = true -> f b = true) ->
  i <= j <= n ->
  (forall k, k < i -> f k = false) ->
  (forall k, j <= k < n -> f k = true) ->
  (forall k, k < search_loop f i j -> f k = false) /\
  (forall k, search_loop f i j <= k < n -> f k = true).
Proof.
  funelim (search_loop f i j); intros Hmono Hij Hlo Hhi.
  - pose proof (half_between i j l) as Hh. clear Heqcall.
    set (h := (i + j) / 2) in *. clearbody h.
    destruct (f h) eqn:Hf; simpl.
    + apply H0; auto; [lia | ].
      intros k Hk. destruct (Nat.eq_dec k h) as [-> | Hne]; [exact Hf | ].
      destruct (Nat.lt_ge_cases k j) as [Hkj | Hkj]; [ | apply Hhi; lia].
      apply (Hmono h k); [lia | exact Hf].
    + apply H; auto; [lia | ].
      intros k Hk. destruct (f k) eqn:Hfk; [ | reflexivity].
      rewrite <- Hf. symmetry. apply (Hmono k h); [lia | exact Hfk].
  - split; [exact Hlo | ]. intros k Hk. apply Hhi. lia.
Qed.

Lemma Search_le n f : Search n f <= n.
Proof. unfold Search. pose proof (search_loop_bounds f 0 n). lia. Qed.

Lemma Search_partition f n :
  (forall a b, a <= b < n -> f a = true -> f b = true) ->
  (forall k, k < Search n f -> f k = false) /\
  (forall k, Search n f <= k < n -> f k = true).
Proof.
  intros Hmono. unfold Search.
  apply (search_loop_partition f n 0 n); auto; lia.
Qed.

End SearchFacts.

(** ** The bytewise order of strings *)

Module StrOrdFacts.

Import StrOrd.

Lemma ascii_compare_refl c : Ascii.compare c c = Eq.
Proof. unfold Ascii.compare. apply N.compare_refl. Qed.

Lemma ascii_compare_lt_trans a b c :
  Ascii.compare a b = Lt -> Ascii.compare b c = Lt -> Ascii.compare a c = Lt.
Proof. unfold Ascii.compare. rewrite !N.compare_lt_iff. lia. Qed.

Lemma compare_refl s : String.compare s s = Eq.
Proof. induction s as [ | c s IH]; simpl; [ | rewrite ascii_compare_refl]; auto. Qed.

Lemma compare_lt_trans a : forall b c,
  String.compare a b = Lt -> String.compare b c = Lt -> String.compare a c = Lt.
Proof.
  induction a as [ | x a IH]; intros [ | y b] [ | z c]; simpl; try discriminate; auto.
  destruct (Ascii.compare x y) eqn:Hxy; try discriminate.
  - apply Ascii.compare_eq_iff in Hxy. subst y.
    destruct (Ascii.compare x z); try discriminate; auto. apply IH.
  - intros _. destruct (Ascii.compare y z) eqn:Hyz; try discriminate.
    + apply Ascii.compare_eq_iff in Hyz. subst z. now rewrite Hxy.
    + now rewrite (ascii_compare_lt_trans x y z Hxy Hyz).
Qed.

Lemma ltb_irrefl s : String.ltb s s = false.
Proof. unfold String.ltb. now rewrite compare_refl. Qed.

Lemma lt_trans a b c : lt a b -> lt b c -> lt a c.
Proof.
  unfold lt, String.ltb. intros Hab Hbc.
  destruct (String.compare a b) eqn:E1; try discriminate.
  destruct (String.compare b c) eqn:E2; try discriminate.
  now rewrite (compare_lt_trans a b c E1 E2).
Qed.

Lemma lt_neq a b : lt a b -> a <> b.
Proof. intros Hlt ->. unfold lt in Hlt. rewrite ltb_irrefl in Hlt. discriminate. Qed.

(** [b >= a], that is [negb (a' < a)], and [b <> a] leave [a < b]. *)
Lemma ge_neq_lt a b : String.ltb b a = false -> b <> a -> lt a b.
Proof.
  unfold lt, String.ltb. rewrite (String.compare_antisym a b).
  destruct (String.compare b a) eqn:E; simpl; try discriminate; auto.
  intros _ Hne. elim Hne. now apply String.compare_eq_iff.
Qed.

Lemma lt_ge_false a b : lt a b -> String.ltb b a = false.
Proof.
  unfold lt, String.ltb. rewrite (String.compare_antisym a b).
  destruct (String.compare b a); simpl; try discriminate; auto.
Qed.

(** [a < b <= c] gives [a < c]. *)
Lemma lt_ge_trans a b c : lt a b -> String.ltb c b = false -> lt a c.
Proof.
  intros Hab Hbc. destruct (String.eqb_spec c b) as [-> | Hne]; [exact Hab | ].
  apply (lt_trans a b c Hab). now apply ge_neq_lt.
Qed.

#[export] Instance lt_transitive : Transitive lt.
Proof. intros a b c. apply lt_trans. Qed.

End StrOrdFacts.

(** ** Slices *)

Module SliceFacts.

#[local] Open Scope nat_scope.

(** [append(s, d); copy(s[ix+1:], s[ix:]); s[ix] = n] splices [n] in at
    [ix]: the placeholder [d] does not survive. *)
Lemma copy_shift_right {A} (l1 l2 : list A) (d n : A) :
  let s := l1 ++ l2 ++ [d] in
  <[length l1 := n]> (copy s (length l1 + 1) (length s) (length l1) (length s))
  = l1 ++ n :: l2.
Proof.
  intros s. unfold copy, s. rewrite !length_app. simpl.
  replace (length l1 + (length l2 + 1) - (length l1 + 1)) with (length l2) by lia.
  replace (length l1 + (length l2 + 1) - length l1) with (length l2 + 1) by lia.
  rewrite Nat.min_l by lia.
  rewrite drop_app_length.
  rewrite (take_app_length l2 [d]).
  rewrite (drop_ge _ (length l1 + 1 + length l2))
    by (rewrite !length_app; simpl; lia).
  rewrite app_nil_r.
  rewrite (take_app_add l1 (l2 ++ [d]) 1).
  rewrite <- app_assoc.
  replace (length l1) with (length l1 + 0) at 1 by lia.
  rewrite insert_app_r.
  destruct l2; reflexivity.
Qed.

(** [copy(s[:ix], s[:ix+1])] copies a prefix of the slice onto itself. *)
Lemma copy_prefix_onto_itself {A} (l : list A) ix :
  copy l 0 ix 0 (ix + 1) = l.
Proof.
  unfold copy. rewrite !Nat.sub_0_r, Nat.min_l by lia. simpl.
  apply take_drop.
Qed.

End SliceFacts.

(** ** Membership operations *)

Section Membership.

Context {H : Hash64}.

#[local] Open Scope nat_scope.

Lemma sorted_lookup_lt l i j n m :
  sorted_nodes l -> i < j -> l !! i = Some n -> l !! j = Some m -> node_lt n m.
Proof.
  intros Hs. revert i j n m.
  induction Hs as [ | x l Hs IH Hall]; intros i j n m Hij Hi Hj.
  - discriminate.
  - destruct j as [ | j]; [lia | ]. simpl in Hj.
    destruct i as [ | i]; simpl in Hi.
    + injection Hi as <-. rewrite Forall_forall in Hall. apply Hall.
      eapply list_elem_of_lookup_2. exact Hj.
    + apply (IH i j); auto. lia.
Qed.

Lemma cmp_monotone r nm a b :
  sorted_nodes (nodes r) -> a <= b < length (nodes r) ->
  cmp r nm a = true -> cmp r nm b = true.
Proof.
  intros Hs Hab. unfold cmp.
  destruct (nodes r !! a) as [n | ] eqn:Ha.
  2:{ apply lookup_ge_None_1 in Ha. lia. }
  destruct (nodes r !! b) as [m | ] eqn:Hb; [ | reflexivity].
  destruct (Nat.eq_dec a b) as [-> | Hne]; [congruence | ].
  intros Hn. apply negb_true_iff in Hn. apply negb_true_iff.
  assert (node_lt n m) as Hnm by (apply (sorted_lookup_lt (nodes r) a b); auto; lia).
  destruct (String.ltb (name m) nm) eqn:Hm; [ | reflexivity].
  assert (StrOrd.lt (name n) nm) as Hlt by (apply (StrOrdFacts.lt_trans _ (name m)); assumption).
  unfold StrOrd.lt in Hlt. congruence.
Qed.

(** On a sorted ring the binary search finds the lower bound of the name:
    names before it are smaller, names from it on are not. *)
Lemma Search_sorted r nm :
  sorted_nodes (nodes r) ->
  let ix := Search (length (nodes r)) (cmp r nm) in
  ix <= length (nodes r) /\
  (forall k n, k < ix -> nodes r !! k = Some n -> StrOrd.lt (name n) nm) /\
  (forall k n, ix <= k -> nodes r !! k = Some n -> String.ltb (name n) nm = false).
Proof.
  intros Hs ix.
  destruct (SearchFacts.Search_partition (cmp r nm) (length (nodes r))) as [Hlo Hhi].
  { intros a b Hab. now apply cmp_monotone. }
  pose proof (SearchFacts.Search_le (length (nodes r)) (cmp r nm)) as Hle.
  fold ix in Hlo, Hhi, Hle. split; [exact Hle | split].
  - intros k n Hk Hn. specialize (Hlo k Hk). unfold cmp in Hlo. rewrite Hn in Hlo.
    apply negb_false_iff in Hlo. exact Hlo.
  - intros k n Hk Hn. assert (k < length (nodes r)) as Hlen.
    { apply lookup_lt_is_Some. eauto. }
    specialize (Hhi k (conj Hk Hlen)). unfold cmp in Hhi. rewrite Hn in Hhi.
    apply negb_true_iff in Hhi. exact Hhi.
Qed.

(** The search lands on the node that bears the name, when there is one. *)
Lemma Search_found r nm i n :
  sorted_nodes (nodes r) -> nodes r !! i = Some n -> name n = nm ->
  Search (length (nodes r)) (cmp r nm) = i.
Proof.
  intros Hs Hi Hn.
  destruct (Search_sorted r nm Hs) as (Hle & Hlo & Hhi).
  set (ix := Search (length (nodes r)) (cmp r nm)) in *.
  destruct (Nat.lt_trichotomy ix i) as [Hlt | [Heq | Hgt]]; [ | exact Heq | ].
  - destruct (lookup_lt_is_Some_2 (nodes r) ix) as [m Hm].
    { apply lookup_lt_Some in Hi. lia. }
    pose proof (sorted_lookup_lt _ _ _ _ _ Hs Hlt Hm Hi) as Hmn.
    unfold node_lt in Hmn. rewrite Hn in Hmn.
    rewrite (Hhi ix m (le_n _) Hm) in Hmn. discriminate.
  - specialize (Hlo i n Hgt Hi). unfold StrOrd.lt in Hlo.
    rewrite Hn, StrOrdFacts.ltb_irrefl in Hlo. discriminate.
Qed.

(** Every name of a sorted ring from the search index on is above a name
    that the node at the index does not bear. *)
Lemma Search_missed r nm :
  sorted_nodes (nodes r) ->
  let ix := Search (length (nodes r)) (cmp r nm) in
  (forall n, nodes r !! ix = Some n -> name n <> nm) ->
  forall k m, ix <= k -> nodes r !! k = Some m -> StrOrd.lt nm (name m).
Proof.
  intros Hs ix Hmiss k m Hk Hm.
  destruct (Search_sorted r nm Hs) as (Hle & Hlo & Hhi). fold ix in Hle, Hlo, Hhi.
  apply StrOrdFacts.ge_neq_lt; [exact (Hhi k m Hk Hm) | ].
  destruct (Nat.eq_dec ix k) as [<- | Hne]; [exact (Hmiss m Hm) | ].
  destruct (lookup_lt_is_Some_2 (nodes r) ix) as [n Hn].
  { apply lookup_lt_Some in Hm. lia. }
  assert (node_lt n m) as Hnm by (apply (sorted_lookup_lt (nodes r) ix k); auto; lia).
  intros Heq. unfold node_lt in Hnm. rewrite Heq in Hnm.
  rewrite (Hhi ix n (le_n _) Hn) in Hnm. discriminate.
Qed.

(** *** [AddWithWeight] *)

Lemma bears_or_not (l : list Node) ix nm :
  (exists n, l !! ix = Some n /\ name n = nm) \/
  (forall n, l !! ix = Some n -> name n <> nm).
Proof.
  destruct (l !! ix) as [n | ]; [ | right; discriminate].
  destruct (String.eqb_spec (name n) nm) as [He | Hne]; [left; eauto | right].
  intros m Hm. injection Hm as <-. exact Hne.
Qed.

(** On a name that the node at the search index bears, only the weight of
    that node is written. *)
Lemma AddWithWeight_found r nm w n :
  let ix := Search (length (nodes r)) (cmp r nm) in
  nodes r !! ix = Some n -> name n = nm ->
  AddWithWeight nm w r
  = mkRing (<[ix := mkNode (name n) (hash n) w]> (nodes r)) (hasher r).
Proof.
  intros ix Hi Hn. unfold AddWithWeight. fold ix. rewrite Hi.
  rewrite (proj2 (String.eqb_eq (name n) nm) Hn).
  f_equal. rewrite list_insert_alter.
  apply list_alter_ext; [ | reflexivity]. intros x Hx. congruence.
Qed.

(** On a name that the node at the search index does not bear, a new node
    is spliced in at the index; its hash is the hasher's sum of the name. *)
Lemma AddWithWeight_splice r nm w :
  let ix := Search (length (nodes r)) (cmp r nm) in
  (forall n, nodes r !! ix = Some n -> name n <> nm) ->
  AddWithWeight nm w r
  = mkRing (take ix (nodes r) ++ mkNode nm (Sum64 (fed r nm)) w :: drop ix (nodes r))
           (fed r nm).
Proof.
  intros ix Hmiss. unfold AddWithWeight. fold ix.
  assert (match nodes r !! ix with
          | Some n => String.eqb (name n) nm
          | None => false
          end = false) as ->.
  { destruct (nodes r !! ix) as [n | ] eqn:Hn; [ | reflexivity].
    apply String.eqb_neq. now apply Hmiss. }
  unfold computeHash. cbn [nodes hasher]. fold (fed r nm). f_equal.
  pose proof (SearchFacts.Search_le (length (nodes r)) (cmp r nm)) as Hle. fold ix in Hle.
  pose proof (SliceFacts.copy_shift_right (take ix (nodes r)) (drop ix (nodes r))
                nilNode (mkNode nm (Sum64 (fed r nm)) w)) as Hc.
  cbv zeta in Hc. rewrite app_assoc, take_drop, length_take_le in Hc by exact Hle.
  exact Hc.
Qed.

(** One of the two happens. *)
Lemma AddWithWeight_cases r nm w :
  let ix := Search (length (nodes r)) (cmp r nm) in
  (exists n, nodes r !! ix = Some n /\ name n = nm /\
     AddWithWeight nm w r
     = mkRing (<[ix := mkNode (name n) (hash n) w]> (nodes r)) (hasher r)) \/
  ((forall n, nodes r !! ix = Some n -> name n <> nm) /\
     AddWithWeight nm w r
     = mkRing (take ix (nodes r) ++ mkNode nm (Sum64 (fed r nm)) w :: drop ix (nodes r))
              (fed r nm)).
Proof.
  intros ix.
  destruct (bears_or_not (nodes r) ix nm) as [(n & Hn & He) | Hmiss].
  - left. exists n. repeat split; auto. now apply AddWithWeight_found.
  - right. split; [exact Hmiss | now apply AddWithWeight_splice].
Qed.

(** Sortedness is a property of the names alone. *)
Lemma sorted_nodes_names l :
  sorted_nodes l <-> StronglySorted StrOrd.lt (map name l).
Proof.
  unfold sorted_nodes. induction l as [ | x l IH]; simpl.
  - split; constructor.
  - rewrite !StronglySorted_cons, IH, Forall_fmap. reflexivity.
Qed.

Lemma update_names (l : list Node) i n w :
  l !! i = Some n ->
  map name (<[i := mkNode (name n) (hash n) w]> l) = map name l.
Proof.
  revert i. induction l as [ | x l IH]; intros [ | i] Hi; simpl in *; try discriminate.
  - injection Hi as <-. reflexivity.
  - f_equal. now apply IH.
Qed.

Lemma splice_sorted l ix x :
  sorted_nodes l -> ix <= length l ->
  (forall k n, k < ix -> l !! k = Some n -> node_lt n x) ->
  (forall k m, ix <= k -> l !! k = Some m -> node_lt x m) ->
  sorted_nodes (take ix l ++ x :: drop ix l).
Proof.
  intros Hs Hle Hlo Hhi. unfold sorted_nodes in *.
  rewrite <- (take_drop ix l) in Hs.
  rewrite StronglySorted_app in Hs. destruct Hs as (Hcross & Hl & Hr).
  rewrite StronglySorted_app, StronglySorted_cons. repeat split; auto.
  - intros x1 x2 Hx1 Hx2.
    apply list_elem_of_lookup in Hx1 as [k Hk].
    apply lookup_take_Some in Hk as [Hk Hlt].
    apply elem_of_cons in Hx2 as [-> | Hx2]; [now apply (Hlo k) | ].
    apply Hcross; [ | exact Hx2]. apply list_elem_of_lookup. exists k.
    apply lookup_take_Some. auto.
  - apply Forall_forall. intros m Hm.
    apply list_elem_of_lookup in Hm as [k Hk]. rewrite lookup_drop in Hk.
    apply (Hhi (ix + k)); [lia | exact Hk].
Qed.

Lemma AddWithWeight_sorted r nm w :
  sorted_nodes (nodes r) -> sorted_nodes (nodes (AddWithWeight nm w r)).
Proof.
  intros Hs.
  destruct (AddWithWeight_cases r nm w) as [(n & Hn & He & ->) | (Hmiss & ->)]; cbn [nodes].
  - apply sorted_nodes_names. rewrite (update_names _ _ _ _ Hn).
    now apply sorted_nodes_names.
  - destruct (Search_sorted r nm Hs) as (Hle & Hlo & Hhi).
    apply splice_sorted; auto.
    intros k m Hk Hm. now apply (Search_missed r nm Hs Hmiss k m).
Qed.

(** *** [Remove] *)

(** [Remove] leaves the ring alone or drops its last node: the [copy] moves
    nothing, and the slice is cut by one at its end. *)
Lemma Remove_cases r nm :
  let ix := Search (length (nodes r)) (cmp r nm) in
  (exists n, nodes r !! ix = Some n /\ name n = nm /\
     Remove nm r = mkRing (take (length (nodes r) - 1) (nodes r)) (hasher r)) \/
  ((forall n, nodes r !! ix = Some n -> name n <> nm) /\ Remove nm r = r).
Proof.
  intros ix. unfold Remove. fold ix.
  destruct (Nat.eqb_spec ix (length (nodes r))) as [He | Hne].
  - right. split; [ | reflexivity]. intros n Hn.
    apply lookup_lt_Some in Hn. lia.
  - destruct (nodes r !! ix) as [n | ] eqn:Hn.
    + destruct (String.eqb_spec (name n) nm) as [Hnm | Hnm].
      * left. exists n. repeat split; auto.
        now rewrite SliceFacts.copy_prefix_onto_itself.
      * right. split; [ | reflexivity]. intros m Hm. congruence.
    + right. split; [ | reflexivity]. intros m Hm. discriminate.
Qed.

Lemma Remove_absent r nm : ~ In nm (List r) -> Remove nm r = r.
Proof.
  intros Hnot. destruct (Remove_cases r nm) as [(n & Hn & He & _) | (_ & ->)]; [ | reflexivity].
  elim Hnot. unfold List. apply in_map_iff. exists n. split; [exact He | ].
  apply list_elem_of_In. eapply list_elem_of_lookup_2. exact Hn.
Qed.

Lemma In_List_lookup r nm :
  In nm (List r) -> exists i n, nodes r !! i = Some n /\ name n = nm.
Proof.
  unfold List. intros Hin. apply in_map_iff in Hin as (n & He & Hin).
  apply list_elem_of_In, list_elem_of_lookup in Hin as [i Hi]. eauto.
Qed.

Lemma Remove_present r nm :
  sorted_nodes (nodes r) -> In nm (List r) ->
  Remove nm r = mkRing (take (length (nodes r) - 1) (nodes r)) (hasher r).
Proof.
  intros Hs Hin. destruct (In_List_lookup r nm Hin) as (i & n & Hi & He).
  pose proof (Search_found r nm i n Hs Hi He) as Hix.
  destruct (Remove_cases r nm) as [(m & Hm & _ & ->) | (Hmiss & _)]; [reflexivity | ].
  rewrite Hix in Hmiss. elim (Hmiss n Hi He).
Qed.

Lemma take_sorted n l : sorted_nodes l -> sorted_nodes (take n l).
Proof.
  intros Hs. unfold sorted_nodes in *. rewrite <- (take_drop n l) in Hs.
  now apply StronglySorted_app_1_l in Hs.
Qed.

Lemma Remove_sorted r nm :
  sorted_nodes (nodes r) -> sorted_nodes (nodes (Remove nm r)).
Proof.
  intros Hs. destruct (Remove_cases r nm) as [(n & _ & _ & ->) | (_ & ->)]; [ | exact Hs].
  cbn [nodes]. now apply take_sorted.
Qed.

(** *** Sequences of calls *)

Lemma call_sorted c r : sorted_nodes (nodes r) -> sorted_nodes (nodes (call c r)).
Proof.
  destruct c; simpl; [apply AddWithWeight_sorted | apply AddWithWeight_sorted | apply Remove_sorted].
Qed.

Lemma run_sorted cs r : sorted_nodes (nodes r) -> sorted_nodes (nodes (run cs r)).
Proof.
  revert r. induction cs as [ | c cs IH]; intros r Hs; simpl; [exact Hs | ].
  apply IH. now apply call_sorted.
Qed.

Lemma sorted_NoDup l : sorted_nodes l -> List.NoDup (map name l).
Proof.
  intros Hs. apply sorted_nodes_names in Hs.
  induction Hs as [ | x l' Hs IH Hall]; constructor; auto.
  intros Hin. rewrite Forall_forall in Hall.
  apply (proj2 (list_elem_of_In _ _)) in Hin. apply Hall in Hin.
  unfold StrOrd.lt in Hin. rewrite StrOrdFacts.ltb_irrefl in Hin. discriminate.
Qed.

End Membership.

(** ** The sorted ring *)

Section SortedRing.

Context {H : Hash64}.

#[local] Open Scope nat_scope.

(** C6.  After every finite sequence of [Add], [AddWithWeight] and
    [Remove] calls on an empty ring, the node slice is strictly ascending
    by name (for all valid [i < j], [nodes[i].name < nodes[j].name]), no
    name occurs twice, and [List] returns the names in that strictly
    ascending order. *)
Theorem sorted_invariant (h0 : hstate) (cs : list Call) :
  let r := run cs (NewWithHash h0) in
  (forall i j n m, i < j -> nodes r !! i = Some n -> nodes r !! j = Some m ->
     String.ltb (name n) (name m) = true) /\
  List.NoDup (List r) /\
  List r = map name (nodes r) /\
  (forall i j a b, i < j -> List r !! i = Some a -> List r !! j = Some b ->
     String.ltb a b = true).
Proof.
  intros r.
  assert (sorted_nodes (nodes r)) as Hs.
  { apply run_sorted. simpl. constructor. }
  assert (forall i j n m, i < j -> nodes r !! i = Some n -> nodes r !! j = Some m ->
            String.ltb (name n) (name m) = true) as Hidx.
  { intros i j n m Hij Hi Hj. exact (sorted_lookup_lt _ _ _ _ _ Hs Hij Hi Hj). }
  split; [exact Hidx | split; [now apply sorted_NoDup | split; [reflexivity | ]]].
  intros i j a b Hij Hi Hj. unfold List in Hi, Hj.
  change (map name (nodes r)) with (name <$> nodes r) in Hi, Hj.
  rewrite list_lookup_fmap in Hi, Hj.
  destruct (nodes r !! i) as [n | ] eqn:Hn; [ | discriminate].
  destruct (nodes r !! j) as [m | ] eqn:Hm; [ | discriminate].
  injection Hi as <-. injection Hj as <-. now apply (Hidx i j).
Qed.

(** *** [Weight] *)

(** [Weight] returns the weight of the node at the search index, whatever
    name that node bears. *)
Lemma Weight_at_index r nm :
  let ix := Search (length (nodes r)) (cmp r nm) in
  Weight nm r = match nodes r !! ix with
                | Some n => weight n
                | None => F64.pzero
                end.
Proof.
  intros ix. unfold Weight. fold ix.
  destruct (Nat.eqb_spec ix (length (nodes r))) as [He | Hne]; [ | reflexivity].
  rewrite (lookup_ge_None_2 (nodes r) ix) by lia. reflexivity.
Qed.

Lemma Weight_present r nm i n :
  sorted_nodes (nodes r) -> nodes r !! i = Some n -> name n = nm ->
  Weight nm r = weight n.
Proof.
  intros Hs Hi Hn. rewrite Weight_at_index, (Search_found r nm i n Hs Hi Hn), Hi.
  reflexivity.
Qed.

(** *** One node per name *)

Lemma count_named_absent nm l : ~ In nm (map name l) -> count_named nm l = 0.
Proof.
  unfold count_named. induction l as [ | x l IH]; simpl; [reflexivity | ].
  intros Hnot. destruct (String.eqb_spec (name x) nm) as [He | Hne].
  - elim Hnot. now left.
  - apply IH. intros Hin. apply Hnot. now right.
Qed.

Lemma count_named_once nm l :
  List.NoDup (map name l) -> In nm (map name l) -> count_named nm l = 1.
Proof.
  unfold count_named. induction l as [ | x l IH]; simpl; [intros _ [] | ].
  intros Hnd Hin. apply NoDup_cons_iff in Hnd as [Hx Hnd].
  destruct (String.eqb_spec (name x) nm) as [He | Hne]; simpl.
  - f_equal. apply count_named_absent. now rewrite <- He.
  - destruct Hin as [Hin | Hin]; [contradiction | ]. now apply IH.
Qed.

(** C8.  On a ring that a sequence of calls has built and that holds a
    node named [x], [AddWithWeight x w] writes the weight of that node and
    nothing else: the node keeps its name, its hash and its index, every
    other node and the hasher are as they were, one node named [x]
    remains, and [Weight x] is [w]. *)
Theorem AddWithWeight_existing (h0 : hstate) (cs : list Call) (x : string) (w : float64) :
  let r := run cs (NewWithHash h0) in
  In x (List r) ->
  exists i n,
    nodes r !! i = Some n /\ name n = x /\
    AddWithWeight x w r
    = mkRing (<[i := mkNode (name n) (hash n) w]> (nodes r)) (hasher r) /\
    (forall j, j <> i -> nodes (AddWithWeight x w r) !! j = nodes r !! j) /\
    nodes (AddWithWeight x w r) !! i = Some (mkNode x (hash n) w) /\
    List (AddWithWeight x w r) = List r /\
    count_named x (nodes (AddWithWeight x w r)) = 1 /\
    Weight x (AddWithWeight x w r) = w.
Proof.
  intros r Hin.
  assert (sorted_nodes (nodes r)) as Hs by (apply run_sorted; simpl; constructor).
  destruct (In_List_lookup r x Hin) as (i & n & Hi & Hn).
  exists i, n.
  pose proof (Search_found r x i n Hs Hi Hn) as Hix.
  pose proof (AddWithWeight_found r x w n) as Hupd. cbv zeta in Hupd.
  rewrite Hix in Hupd. specialize (Hupd Hi Hn).
  assert (i < length (nodes r)) as Hlen by (apply lookup_lt_Some in Hi; exact Hi).
  assert (nodes (AddWithWeight x w r) !! i = Some (mkNode x (hash n) w)) as Hnew.
  { rewrite Hupd. cbn [nodes]. rewrite list_lookup_insert_eq by exact Hlen. now rewrite Hn. }
  assert (List (AddWithWeight x w r) = List r) as Hlist.
  { rewrite Hupd. unfold List. cbn [nodes]. now apply update_names. }
  repeat split; auto.
  - intros j Hj. rewrite Hupd. cbn [nodes]. apply list_lookup_insert_ne. auto.
  - apply count_named_once.
    + fold (List (AddWithWeight x w r)). rewrite Hlist. now apply sorted_NoDup.
    + fold (List (AddWithWeight x w r)). now rewrite Hlist.
  - apply (Weight_present _ x i (mkNode x (hash n) w)); auto.
    now apply AddWithWeight_sorted.
Qed.

End SortedRing.

(** ** The package on its default hasher *)

Module OnFNV.

Import FNV Samples.

#[export] Instance New64a_spec : Hash64Spec New64a.
Proof. constructor. reflexivity. Qed.

(** The published test vector of 64-bit FNV-1a for the one-byte input "a". *)
Example fnv64a_of_a : write offset64 "a" = 0xaf63dc4c8601ec8c.
Proof. reflexivity. Qed.

(** The combined hashes of the key "foo" with the nodes "a" to "e" rank the
    nodes as [TestRing_LookupAll] expects them: d, b, c, a, e. *)
Example mix_ranking_foo :
  let mix nm := combineHashes (write offset64 "foo") (write offset64 nm) in
  (mix "d" >? mix "b") && (mix "b" >? mix "c") &&
  (mix "c" >? mix "a") && (mix "a" >? mix "e") = true.
Proof. vm_compute. reflexivity. Qed.

(** C1, at the input of [TestRing_Remove].  On the ring of a, b and c,
    [Remove "b"] leaves [List() == [a, b]]: the node named c is gone and
    the node named b is still there, where the claim has [[a, c]].  The
    [copy] in [Remove] moves nothing (its two windows start at 0), and the
    slice loses its last element. *)
Theorem Remove_b_of_abc :
  List ring_abc = ["a"; "b"; "c"] /\
  List (Remove "b" ring_abc) = ["a"; "b"] /\
  Contains "b" (Remove "b" ring_abc) = true /\
  Contains "c" (Remove "b" ring_abc) = false.
Proof. vm_compute. repeat split. Qed.

(** C3, on a populated ring.  [Weight "b"] on the ring that holds only c
    is the weight of c, 1.0, where the claim has 0: [Weight] returns the
    weight of the node at the search index without looking at its name. *)
Theorem Weight_of_missing_name :
  Contains "b" (Add "c" New) = false /\
  Weight "b" (Add "c" New) = defaultWeight /\
  F64.eqb (Weight "b" (Add "c" New)) F64.pzero = false.
Proof. vm_compute. repeat split. Qed.

Lemma AddWithWeight_existing_witness :
  let r := run [CallAdd "a"; CallAdd "b"] New in
  In "b" (List r) /\
  exists i n,
    nodes r !! i = Some n /\ name n = "b" /\
    AddWithWeight "b" w15 r
    = mkRing (<[i := mkNode (name n) (hash n) w15]> (nodes r)) (hasher r) /\
    (forall j, j <> i -> nodes (AddWithWeight "b" w15 r) !! j = nodes r !! j) /\
    nodes (AddWithWeight "b" w15 r) !! i = Some (mkNode "b" (hash n) w15) /\
    List (AddWithWeight "b" w15 r) = List r /\
    count_named "b" (nodes (AddWithWeight "b" w15 r)) = 1%nat /\
    Weight "b" (AddWithWeight "b" w15 r) = w15.
Proof.
  assert (In "b" (List (run [CallAdd "a"; CallAdd "b"] New))) as Hin
    by (vm_compute; auto).
  split; [exact Hin | ].
  exact (AddWithWeight_existing (H := New64a) offset64 [CallAdd "a"; CallAdd "b"] "b" w15 Hin).
Defined.

End OnFNV.

(** ** Lookups *)

Section Lookups.

Context {H : Hash64} {L : MathLog} {S : SortSlice}.

Lemma LookupAll_unfold key r :
  LookupAll key r
  = (ranking (Sum64 (fed r key)) (nodes r), mkRing (nodes r) (fed r key)).
Proof. reflexivity. Qed.

Lemma LookupAll_nodes key r : nodes (snd (LookupAll key r)) = nodes r.
Proof. reflexivity. Qed.

(** A second [computeHash] of the same string starts from the same reset
    state, and leaves the same sum. *)
Lemma fed_again `{!Hash64Spec H} key r r' : fed r key = fed r' key.
Proof. unfold fed. now rewrite !Reset_initial. Qed.

(** Run one after the other, two calls of [LookupAll] with the same key,
    the second on the ring as the first call left it (its hasher reset and
    fed once), return the same list of names in the same order; the first
    call leaves the node slice as it was. *)
Theorem LookupAll_deterministic `{!Hash64Spec H} (key : string) (r : Ring) :
  fst (LookupAll key (snd (LookupAll key r))) = fst (LookupAll key r) /\
  nodes (snd (LookupAll key r)) = nodes r.
Proof.
  split; [ | reflexivity]. rewrite !LookupAll_unfold. cbn [fst snd nodes].
  now rewrite (fed_again key (mkRing (nodes r) (fed r key)) r).
Qed.

Section Sorted.

Context `{!SortSliceSpec S}.

Lemma ranking_perm keyHash l : Permutation (ranking keyHash l) (map name l).
Proof.
  unfold ranking.
  rewrite (Permutation_map _ (sortSlice_perm _ _ _)).
  rewrite map_map. simpl. reflexivity.
Qed.

Lemma LookupAll_perm key r : Permutation (fst (LookupAll key r)) (List r).
Proof. apply ranking_perm. Qed.

Lemma LookupAll_length key r : length (fst (LookupAll key r)) = Len r.
Proof.
  rewrite (Permutation_length (LookupAll_perm key r)).
  unfold List, Len. apply length_map.
Qed.

(** C4, for a count that is not negative.  For every ring of [m]
    nodes, every key and every [n >= 0], [LookupTopN key n] returns
    without a panic the first [min n m] names of [LookupAll key], a
    list of length [min n m]. *)
Theorem LookupTopN_prefix (key : string) (n : Z) (r : Ring) :
  0 <= n ->
  let m := Len r in
  let k := Nat.min (Z.to_nat n) m in
  fst (LookupTopN key n r) = Ok (take k (fst (LookupAll key r))) /\
  length (take k (fst (LookupAll key r))) = k /\
  Z.of_nat k = Z.min n (Z.of_nat m).
Proof.
  intros Hn m k.
  pose proof (LookupAll_length key r) as Hlen. fold m in Hlen.
  assert (Z.of_nat k = Z.min n (Z.of_nat m)) as Hk by (unfold k; lia).
  split; [ | split; [rewrite length_take; lia | exact Hk]].
  unfold LookupTopN.
  destruct (LookupAll key r) as [names r1] eqn:E. cbn [fst] in *.
  rewrite Hlen.
  destruct (Z.geb_spec (Z.of_nat m) n) as [Hge | Hlt]; cbn [fst].
  - unfold slice_to. rewrite Hlen.
    replace (n <? 0) with false by (symmetry; apply Z.ltb_ge; lia).
    replace (Z.of_nat m <? n) with false by (symmetry; apply Z.ltb_ge; lia).
    simpl. f_equal. f_equal. unfold k. lia.
  - f_equal. symmetry. apply take_ge. unfold k. lia.
Qed.

End Sorted.

(** [Lookup] does not panic: it returns the head of the ranking, or the
    empty string when the ranking is empty. *)
Lemma Lookup_head key r :
  Lookup key r = (Ok (match fst (LookupAll key r) with
                      | x :: _ => x
                      | [] => ""
                      end), snd (LookupAll key r)).
Proof.
  unfold Lookup, LookupTopN.
  destruct (LookupAll key r) as [names r1]. cbn [fst snd].
  destruct names as [ | x names]; [reflexivity | ].
  replace (Z.of_nat (length (x :: names)) >=? 1) with true
    by (symmetry; apply Z.geb_le; simpl length; lia).
  unfold slice_to.
  replace (Z.of_nat (length (x :: names)) <? 1) with false
    by (symmetry; apply Z.ltb_ge; simpl length; lia).
  reflexivity.
Qed.

Lemma Lookup_nodes key r : nodes (snd (Lookup key r)) = nodes r.
Proof. now rewrite Lookup_head. Qed.

Section SortedLookup.

Context `{!SortSliceSpec S}.

Lemma ranking_nil keyHash : ranking keyHash [] = [].
Proof. apply Permutation_nil. symmetry. apply (ranking_perm keyHash []). Qed.

Lemma ranking_singleton keyHash n : ranking keyHash [n] = [name n].
Proof. apply Permutation_length_1_inv. symmetry. apply (ranking_perm keyHash [n]). Qed.

(** The name [Lookup] returns on a ring that is not empty is the name
    of one of its nodes. *)
Lemma Lookup_member key r :
  nodes r <> [] -> exists y, fst (Lookup key r) = Ok y /\ In y (List r).
Proof.
  intros Hne. rewrite Lookup_head. cbn [fst].
  pose proof (LookupAll_perm key r) as Hp.
  destruct (fst (LookupAll key r)) as [ | y names].
  - apply Permutation_nil in Hp. unfold List in Hp.
    destruct (nodes r); [congruence | discriminate].
  - exists y. split; [reflexivity | ].
    apply (Permutation_in _ Hp). now left.
Qed.

Lemma Add_to_empty h0 nm w :
  nodes (AddWithWeight nm w (NewWithHash h0))
  = [mkNode nm (Sum64 (fed (NewWithHash h0) nm)) w].
Proof.
  pose proof (AddWithWeight_splice (NewWithHash h0) nm w) as Hs. cbv zeta in Hs.
  pose proof (SearchFacts.Search_le (length (nodes (NewWithHash h0)))
                (cmp (NewWithHash h0) nm)) as Hle.
  simpl in Hle.
  assert (Search 0 (cmp (NewWithHash h0) nm) = 0%nat) as H0 by lia.
  simpl in Hs. rewrite H0 in Hs. rewrite Hs; [reflexivity | ].
  intros n Hn. discriminate.
Qed.

(** C10.  [Lookup] returns the empty string on the empty ring, and
    also on a ring that is not empty: on the ring whose one node is named
    by the empty string, for every key. *)
Theorem Lookup_empty_string_ambiguous (h0 : hstate) (key : string) :
  let r0 := NewWithHash h0 in
  let r1 := Add "" r0 in
  Len r0 = 0%nat /\ fst (Lookup key r0) = Ok "" /\
  Len r1 = 1%nat /\ Contains "" r1 = true /\ fst (Lookup key r1) = Ok "".
Proof.
  intros r0 r1.
  assert (nodes r1 = [mkNode "" (Sum64 (fed r0 "")) defaultWeight]) as Hn1
    by apply Add_to_empty.
  split; [reflexivity | split]; [ | split; [ | split]].
  - rewrite Lookup_head, LookupAll_unfold. cbn [fst nodes r0 NewWithHash].
    now rewrite ranking_nil.
  - unfold Len. now rewrite Hn1.
  - unfold Contains. now rewrite Hn1.
  - rewrite Lookup_head, LookupAll_unfold. cbn [fst]. rewrite Hn1.
    now rewrite ranking_singleton.
Qed.

(** C2, wherever the top-ranked node is the last node of the slice.
    Let the ring be sorted, let [z] be its last node and the node that
    [Lookup key] returns, and let [X] name another node.  Then
    [Lookup key <> X], yet after [Remove X] the ring holds the nodes
    before [z], the node named [X] among them, and [Lookup key] returns
    another name than before: [Remove] has cut the last node off. *)
Theorem Remove_moves_lookup_off_last_node
    (r : Ring) (key X : string) (front : list Node) (z : Node) :
  sorted_nodes (nodes r) ->
  nodes r = front ++ [z] ->
  In X (map name front) ->
  fst (Lookup key r) = Ok (name z) ->
  let r' := Remove X (snd (Lookup key r)) in
  name z <> X /\
  nodes r' = front /\
  exists y, fst (Lookup key r') = Ok y /\ In y (map name front) /\ y <> name z.
Proof.
  intros Hs Hr HX Htop r'.
  assert (forall y, In y (map name front) -> String.ltb y (name z) = true) as Hlt.
  { intros y Hy. apply in_map_iff in Hy as (n & <- & Hn).
    unfold sorted_nodes in Hs. rewrite Hr in Hs.
    apply (StronglySorted_app_1_elem_of _ _ _ n z Hs).
    - now apply list_elem_of_In.
    - apply list_elem_of_In. now left. }
  assert (forall y, In y (map name front) -> y <> name z) as Hne.
  { intros y Hy ->. specialize (Hlt _ Hy). rewrite StrOrdFacts.ltb_irrefl in Hlt. discriminate. }
  assert (nodes r' = front) as Hfront.
  { unfold r'. rewrite Remove_present.
    - cbn [nodes]. rewrite Lookup_nodes, Hr, length_app. simpl.
      replace (length front + 1 - 1)%nat with (length front) by lia.
      apply take_app_length.
    - now rewrite Lookup_nodes.
    - unfold List. rewrite Lookup_nodes, Hr, map_app. apply in_or_app. now left. }
  split; [intros He; apply (Hne X HX); now symmetry | split; [exact Hfront | ]].
  destruct (Lookup_member key r') as (y & Hy & Hin).
  { rewrite Hfront. intros ->. destruct HX. }
  exists y. unfold List in Hin. rewrite Hfront in Hin. auto.
Qed.

(** A slice of two elements, the second [less] than the first, is sorted
    by swapping them. *)
Lemma sortSlice_swaps_two {A} (less : A -> A -> bool) (x y : A) :
  less y x = true -> less x y = false ->
  less x x = false -> less y y = false ->
  sortSlice less [x; y] = [y; x].
Proof.
  intros Hyx Hxy Hxx Hyy.
  assert (StrictWeakOn less [x; y]) as Hswo.
  { constructor.
    - intros a [<- | [<- | []]]; assumption.
    - intros a b c [<- | [<- | []]] [<- | [<- | []]] [<- | [<- | []]]; congruence.
    - intros a b c [<- | [<- | []]] [<- | [<- | []]] [<- | [<- | []]]; split; congruence. }
  pose proof (sortSlice_ordered A less [x; y] Hswo) as Hord.
  pose proof (sortSlice_perm A less [x; y]) as Hperm.
  symmetry in Hperm. apply Permutation_length_2_inv in Hperm as [E | E]; [ | exact E].
  rewrite E in Hord. unfold ordered_by in Hord.
  apply StronglySorted_cons in Hord as [Hall _].
  rewrite Forall_forall in Hall.
  specialize (Hall y ltac:(apply list_elem_of_In; now left)). congruence.
Qed.

End SortedLookup.

End Lookups.

(** ** The instances meet the laws *)

Module InsertionSortFacts.

Import InsertionSort.

Section Sort.

Context {A : Type} (less : A -> A -> bool).

Lemma sink_perm x rp : Permutation (sink less x rp) (x :: rp).
Proof.
  induction rp as [ | y rest IH]; simpl; [reflexivity | ].
  destruct (less x y); [ | reflexivity].
  rewrite IH. apply perm_swap.
Qed.

Lemma fold_sink_perm l acc :
  Permutation (fold_left (fun rp x => sink less x rp) l acc) (l ++ acc).
Proof.
  revert acc. induction l as [ | x l IH]; intros acc; simpl; [reflexivity | ].
  rewrite IH, sink_perm. symmetry. apply Permutation_middle.
Qed.

Lemma sort_perm l : Permutation (sort less l) l.
Proof.
  unfold sort. rewrite <- Permutation_rev, fold_sink_perm.
  now rewrite app_nil_r.
Qed.

(** In a strict weak ordering "not less than" is transitive. *)
Lemma not_less_trans u x y z :
  StrictWeakOn less u -> In x u -> In y u -> In z u ->
  less x y = false -> less y z = false -> less x z = false.
Proof.
  intros Hswo Hx Hy Hz Hxy Hyz.
  destruct (less x z) eqn:Hxz; [ | reflexivity].
  destruct (less y x) eqn:Hyx.
  { rewrite (swo_trans less u Hswo y x z) in Hyz; auto. }
  destruct (less z y) eqn:Hzy.
  { rewrite (swo_trans less u Hswo x z y) in Hxy; auto. }
  destruct (swo_incomp less u Hswo x y z) as [Hf _]; auto. congruence.
Qed.

Lemma less_asym u x y :
  StrictWeakOn less u -> In x u -> In y u -> less x y = true -> less y x = false.
Proof.
  intros Hswo Hx Hy Hxy. destruct (less y x) eqn:Hyx; [ | reflexivity].
  rewrite <- (swo_irrefl less u Hswo x Hx). symmetry.
  now apply (swo_trans less u Hswo x y x).
Qed.

Lemma sink_rsorted u x rp :
  StrictWeakOn less u -> In x u -> (forall y, In y rp -> In y u) ->
  rsorted less rp -> rsorted less (sink less x rp).
Proof.
  intros Hswo Hx Hrp Hs. unfold rsorted in *.
  induction rp as [ | y rest IH]; simpl.
  - constructor; constructor.
  - apply StronglySorted_cons in Hs as [Hall Hs].
    assert (In y u) as Hy by (apply Hrp; now left).
    assert (forall e, In e rest -> In e u) as Hrest by (intros e He; apply Hrp; now right).
    destruct (less x y) eqn:Hxy.
    + apply StronglySorted_cons. split; [ | now apply IH].
      apply Forall_forall. intros e He.
      apply list_elem_of_In in He.
      apply (Permutation_in _ (sink_perm x rest)) in He as [<- | He].
      * now apply (less_asym u x y).
      * rewrite Forall_forall in Hall. apply Hall. now apply list_elem_of_In.
    + apply StronglySorted_cons. split.
      * apply Forall_forall. intros e He. apply elem_of_cons in He as [-> | He]; [exact Hxy | ].
        rewrite Forall_forall in Hall.
        apply (not_less_trans u x y e); auto.
        apply Hrest. now apply list_elem_of_In.
      * apply StronglySorted_cons. auto.
Qed.

Lemma fold_sink_rsorted u l acc :
  StrictWeakOn less u -> (forall y, In y l -> In y u) -> (forall y, In y acc -> In y u) ->
  rsorted less acc -> rsorted less (fold_left (fun rp x => sink less x rp) l acc).
Proof.
  intros Hswo. revert acc. induction l as [ | x l IH]; intros acc Hl Hacc Hs; simpl; [exact Hs | ].
  apply IH.
  - intros y Hy. apply Hl. now right.
  - intros y Hy. apply (Permutation_in _ (sink_perm x acc)) in Hy as [<- | Hy].
    + apply Hl. now left.
    + now apply Hacc.
  - apply (sink_rsorted u); auto. apply Hl. now left.
Qed.

Lemma rev_rsorted rp : rsorted less rp -> ordered_by less (rev rp).
Proof.
  unfold rsorted, ordered_by. induction 1 as [ | y rest Hs IH Hall]; simpl.
  - constructor.
  - apply StronglySorted_app. repeat split; auto.
    + intros x1 x2 Hx1 Hx2. apply list_elem_of_In in Hx2 as [<- | []].
      rewrite Forall_forall in Hall. apply Hall.
      apply list_elem_of_In. apply in_rev. now apply list_elem_of_In.
    + constructor; constructor.
Qed.

Lemma sort_ordered l : StrictWeakOn less l -> ordered_by less (sort less l).
Proof.
  intros Hswo. unfold sort. apply rev_rsorted.
  apply (fold_sink_rsorted l); auto.
  - intros y [].
  - constructor.
Qed.

End Sort.

#[export] Instance sorter_spec : SortSliceSpec sorter.
Proof.
  constructor.
  - intros A less l. apply sort_perm.
  - intros A less l. apply sort_ordered.
Qed.

End InsertionSortFacts.

Module SignLogFacts.

Import SignLog.

#[export] Instance mathlog_spec : MathLogSpec mathlog.
Proof.
  constructor; try reflexivity.
  - intros [s | [ | ] | | [ | ] m e]; try reflexivity; discriminate.
  - intros [s | [ | ] | | [ | ] m e]; try discriminate.
    intros _ Hlt. cbn [Log mathlog log]. rewrite Hlt. reflexivity.
Qed.

End SignLogFacts.

(** ** The theorems at concrete inputs *)

Module Concrete.

Import FNV Samples OnFNV.

#[local] Existing Instance SignLog.mathlog.
#[local] Existing Instance InsertionSort.sorter.
#[local] Existing Instance SignLogFacts.mathlog_spec.
#[local] Existing Instance InsertionSortFacts.sorter_spec.

Lemma LookupAll_deterministic_witness :
  fst (LookupAll "foo" (snd (LookupAll "foo" ring_abc))) = fst (LookupAll "foo" ring_abc) /\
  nodes (snd (LookupAll "foo" ring_abc)) = nodes ring_abc.
Proof. exact (LookupAll_deterministic "foo" ring_abc). Defined.

Lemma LookupTopN_prefix_witness :
  0 <= 3 /\
  let m := Len ring_abcde in
  let k := Nat.min (Z.to_nat 3) m in
  fst (LookupTopN "foo" 3 ring_abcde) = Ok (take k (fst (LookupAll "foo" ring_abcde))) /\
  length (take k (fst (LookupAll "foo" ring_abcde))) = k /\
  Z.of_nat k = Z.min 3 (Z.of_nat m).
Proof.
  split; [lia | ]. apply (LookupTopN_prefix "foo" 3 ring_abcde). lia.
Defined.

(** C4, at a negative count.  [LookupTopN("foo", -1)] on the ring of
    a to e panics: five names are at least [-1], and [names[:-1]] is out
    of range.  No list of length [min(-1, 5)] is returned. *)
Lemma LookupTopN_negative_panics :
  fst (LookupTopN "foo" (-1) ring_abcde) = Panic "slice bounds out of range".
Proof. vm_compute. reflexivity. Qed.

Lemma Lookup_empty_string_ambiguous_witness :
  let r0 := New in
  let r1 := Add "" r0 in
  Len r0 = 0%nat /\ fst (Lookup "foo" r0) = Ok "" /\
  Len r1 = 1%nat /\ Contains "" r1 = true /\ fst (Lookup "foo" r1) = Ok "".
Proof. exact (Lookup_empty_string_ambiguous (H := New64a) offset64 "foo"). Defined.

Lemma Remove_moves_lookup_off_last_node_witness :
  let r' := Remove "a" (snd (Lookup "foo" ring_a1_b2)) in
  name node_b2 <> "a" /\
  nodes r' = [node_a] /\
  exists y, fst (Lookup "foo" r') = Ok y /\ In y (map name [node_a]) /\ y <> name node_b2.
Proof.
  apply (Remove_moves_lookup_off_last_node ring_a1_b2 "foo" "a" [node_a] node_b2).
  - vm_compute. repeat constructor.
  - vm_compute. reflexivity.
  - simpl. auto.
  - vm_compute. reflexivity.
Defined.

End Concrete.

(** ** Floating point: the sign of a quotient *)

Module F64Facts.

Import F64.

Lemma signed_false_nonneg x : signed false x -> nonneg x = true.
Proof. destruct x as [s | s | | s m e]; simpl; try intros ->; try reflexivity; intros []. Qed.

Lemma shr_1_nonneg mrs : 0 <= shr_m mrs -> 0 <= shr_m (shr_1 mrs).
Proof.
  destruct mrs as [m r s]. simpl.
  destruct m as [ | [p | p | ] | [p | p | ]]; simpl; lia.
Qed.

Lemma iter_pos_inv {A} (P : A -> Prop) (f : A -> A) :
  (forall x, P x -> P (f x)) -> forall p x, P x -> P (SpecFloat.iter_pos f p x).
Proof.
  intros Hf. induction p as [p IH | p IH | ]; intros x Hx; simpl; auto.
Qed.

Lemma shr_nonneg mrs e n : 0 <= shr_m mrs -> 0 <= shr_m (fst (shr mrs e n)).
Proof.
  intros Hm. unfold shr. destruct n as [ | p | p]; simpl; auto.
  apply (iter_pos_inv (fun mrs => 0 <= shr_m mrs)); auto. apply shr_1_nonneg.
Qed.

Lemma shr_fexp_nonneg m e l :
  0 <= m -> 0 <= shr_m (fst (shr_fexp prec emax m e l)).
Proof.
  intros Hm. unfold shr_fexp. apply shr_nonneg.
  destruct l as [ | [ | | ]]; exact Hm.
Qed.

Lemma round_nearest_even_nonneg m l : 0 <= m -> 0 <= round_nearest_even m l.
Proof.
  intros Hm. unfold round_nearest_even.
  destruct l as [ | [ | | ]]; try destruct (Z.even m); lia.
Qed.

(** Rounding a mantissa that is not negative gives zero, a finite number or
    an infinity of the sign asked for, never NaN. *)
Lemma binary_round_aux_signed sx mx ex lx :
  0 <= mx -> signed sx (binary_round_aux prec emax sx mx ex lx).
Proof.
  intros Hm. unfold binary_round_aux.
  pose proof (shr_fexp_nonneg mx ex lx Hm) as H1.
  destruct (shr_fexp prec emax mx ex lx) as [mrs' e']. cbn [fst] in H1.
  pose proof (shr_fexp_nonneg _ e' loc_Exact
                (round_nearest_even_nonneg _ (loc_of_shr_record mrs') H1)) as H2.
  destruct (shr_fexp prec emax _ e' loc_Exact) as [mrs'' e'']. cbn [fst] in H2.
  destruct (shr_m mrs'') as [ | m | m]; simpl; [reflexivity | | lia].
  destruct (e'' <=? emax - prec); reflexivity.
Qed.

Lemma of_Z_signed z : 0 <= z -> signed false (of_Z z).
Proof.
  intros Hz. unfold of_Z, binary_normalize.
  destruct z as [ | p | p]; [reflexivity | | lia].
  unfold binary_round.
  destruct (shl_align p 0 _) as [mz ez].
  apply binary_round_aux_signed. lia.
Qed.

Lemma div_core_nonneg m1 e1 m2 e2 :
  0 <= fst (fst (SFdiv_core_binary prec emax (Zpos m1) e1 (Zpos m2) e2)).
Proof.
  unfold SFdiv_core_binary.
  set (s := _ - _ - _).
  set (m' := match s with Z0 => Zpos m1 | Zpos _ => Z.shiftl (Zpos m1) s | Zneg _ => 0 end).
  assert (0 <= m') as Hm'.
  { unfold m'. destruct s; try lia. apply Z.shiftl_nonneg. lia. }
  pose proof (Z.div_pos m' (Zpos m2) Hm' ltac:(lia)) as Hq.
  unfold Z.div in Hq. destruct (Z.div_eucl m' (Zpos m2)) as [q r]. exact Hq.
Qed.

(** The quotient of two finite numbers carries the product of their signs. *)
Lemma div_finite_signed s1 m1 e1 s2 m2 e2 :
  signed (xorb s1 s2) (div (S754_finite s1 m1 e1) (S754_finite s2 m2 e2)).
Proof.
  unfold div, SFdiv.
  pose proof (div_core_nonneg m1 e1 m2 e2) as Hq.
  destruct (SFdiv_core_binary prec emax (Zpos m1) e1 (Zpos m2) e2) as [[mz ez] lz].
  apply binary_round_aux_signed. exact Hq.
Qed.

Example of_Z_MaxUint64 : of_Z U64.MaxUint64 = S754_finite false 4503599627370496 12.
Proof. vm_compute. reflexivity. Qed.

(** The normalised hash [float64(h) / float64(math.MaxUint64)] of a hash
    that is not negative is not negative and not NaN. *)
Lemma normalised_signed h :
  0 <= h -> signed false (div (of_Z h) (of_Z U64.MaxUint64)).
Proof.
  intros Hh. rewrite of_Z_MaxUint64.
  pose proof (of_Z_signed h Hh) as Hs.
  destruct (of_Z h) as [s | s | | s m e]; simpl in Hs; try subst s; try contradiction.
  - reflexivity.
  - reflexivity.
  - apply (div_finite_signed false m e false).
Qed.

(** *** The conversion of a [uint64] and its division by [2^64] *)

Lemma digits2_pos_bounds p :
  2 ^ (Zpos (digits2_pos p) - 1) <= Zpos p < 2 ^ Zpos (digits2_pos p).
Proof.
  induction p as [p IH | p IH | ]; simpl digits2_pos.
  - rewrite Pos2Z.inj_succ.
    replace (Z.succ (Zpos (digits2_pos p)) - 1) with (Z.succ (Zpos (digits2_pos p) - 1)) by lia.
    rewrite !Z.pow_succ_r by lia. lia.
  - rewrite Pos2Z.inj_succ.
    replace (Z.succ (Zpos (digits2_pos p)) - 1) with (Z.succ (Zpos (digits2_pos p) - 1)) by lia.
    rewrite !Z.pow_succ_r by lia. lia.
  - simpl. lia.
Qed.

Lemma digits2_pos_unique p k :
  2 ^ (k - 1) <= Zpos p < 2 ^ k -> Zpos (digits2_pos p) = k.
Proof.
  intros [Hlo Hhi]. pose proof (digits2_pos_bounds p) as [Dlo Dhi].
  assert (0 < k) as Hk.
  { destruct (Z.lt_ge_cases 0 k) as [ | Hle]; [assumption | ].
    destruct (Z.eq_dec k 0) as [-> | ]; [simpl in Hhi; lia | ].
    rewrite Z.pow_neg_r in Hhi by lia. lia. }
  destruct (Z.lt_trichotomy (Zpos (digits2_pos p)) k) as [Hlt | [Heq | Hgt]]; [ | exact Heq | ].
  - assert (2 ^ Zpos (digits2_pos p) <= 2 ^ (k - 1)) by (apply Z.pow_le_mono_r; lia). lia.
  - assert (2 ^ k <= 2 ^ (Zpos (digits2_pos p) - 1)) by (apply Z.pow_le_mono_r; lia). lia.
Qed.


Lemma shr_1_spec mrs :
  0 <= shr_m mrs ->
  shr_m (shr_1 mrs) = Z.shiftr (shr_m mrs) 1 /\
  shr_r (shr_1 mrs) = Z.testbit (shr_m mrs) 0.
Proof.
  destruct mrs as [m r s]. simpl shr_m. intros Hm.
  rewrite Z.shiftr_div_pow2 by lia. change (2 ^ 1) with 2.
  destruct m as [ | [p | p | ] | p]; try lia; simpl shr_1; cbn [shr_m shr_r]; split;
    try reflexivity.
  - rewrite Pos2Z.inj_xI. apply (Z.div_unique _ 2 _ 1); lia.
  - rewrite Pos2Z.inj_xO. apply (Z.div_unique _ 2 _ 0); lia.
Qed.

Lemma iter_shr_1_spec p : forall mrs,
  0 <= shr_m mrs ->
  shr_m (SpecFloat.iter_pos shr_1 p mrs) = Z.shiftr (shr_m mrs) (Zpos p) /\
  shr_r (SpecFloat.iter_pos shr_1 p mrs) = Z.testbit (shr_m mrs) (Zpos p - 1).
Proof.
  induction p as [p IH | p IH | ]; intros mrs Hm; simpl SpecFloat.iter_pos.
  - destruct (shr_1_spec mrs Hm) as [M1 R1].
    assert (0 <= shr_m (shr_1 mrs)) as H1 by (rewrite M1; apply Z.shiftr_nonneg; exact Hm).
    destruct (IH _ H1) as [M2 R2].
    assert (0 <= shr_m (SpecFloat.iter_pos shr_1 p (shr_1 mrs))) as H2
      by (rewrite M2; apply Z.shiftr_nonneg; exact H1).
    destruct (IH _ H2) as [M3 R3].
    rewrite M3, R3, M2, M1. rewrite !Z.shiftr_shiftr by lia.
    rewrite !Z.shiftr_spec by lia. split; f_equal; lia.
  - destruct (IH _ Hm) as [M2 R2].
    assert (0 <= shr_m (SpecFloat.iter_pos shr_1 p mrs)) as H2
      by (rewrite M2; apply Z.shiftr_nonneg; exact Hm).
    destruct (IH _ H2) as [M3 R3].
    rewrite M3, R3, M2. rewrite !Z.shiftr_shiftr by lia.
    rewrite !Z.shiftr_spec by lia. split; f_equal; lia.
  - apply shr_1_spec. exact Hm.
Qed.


Lemma shr_fexp_53 m e :
  Zpos (digits2_pos m) = 53 -> -1074 <= e ->
  shr_fexp 53 1024 (Zpos m) e loc_Exact = (Build_shr_record (Zpos m) false false, e).
Proof.
  intros Hd He. unfold shr_fexp. cbn [Zdigits2 shr_record_of_loc]. rewrite Hd.
  unfold fexp, emin.
  replace (Z.max (53 + e - 53) (3 - 1024 - 53) - e) with 0 by lia.
  reflexivity.
Qed.

Lemma round_aux_53 s m e :
  Zpos (digits2_pos m) = 53 -> -1074 <= e <= 971 ->
  binary_round_aux 53 1024 s (Zpos m) e loc_Exact = S754_finite s m e.
Proof.
  intros Hd He. unfold binary_round_aux.
  rewrite (shr_fexp_53 m e Hd) by lia.
  cbn [shr_m loc_of_shr_record round_nearest_even].
  rewrite (shr_fexp_53 m e Hd) by lia.
  cbn [shr_m].
  replace (e <=? 1024 - 53) with true by (symmetry; apply Z.leb_le; lia).
  reflexivity.
Qed.

(** 2m with m of 53 digits *)
Lemma shr_fexp_54_even m e :
  Zpos (digits2_pos m) = 53 -> -1075 <= e ->
  shr_fexp 53 1024 (Zpos m~0) e loc_Exact = (Build_shr_record (Zpos m) false false, e + 1).
Proof.
  intros Hd He. unfold shr_fexp. cbn [Zdigits2 shr_record_of_loc digits2_pos].
  rewrite Pos2Z.inj_succ, Hd.
  unfold fexp, emin.
  replace (Z.max (Z.succ 53 + e - 53) (3 - 1024 - 53) - e) with 1 by lia.
  reflexivity.
Qed.

Lemma round_aux_54_even s m e :
  Zpos (digits2_pos m) = 53 -> -1075 <= e <= 970 ->
  binary_round_aux 53 1024 s (Zpos m~0) e loc_Exact = S754_finite s m (e + 1).
Proof.
  intros Hd He. unfold binary_round_aux.
  rewrite (shr_fexp_54_even m e Hd) by lia.
  cbn [shr_m loc_of_shr_record round_nearest_even].
  rewrite (shr_fexp_53 m (e + 1) Hd) by lia.
  cbn [shr_m].
  replace (e + 1 <=? 1024 - 53) with true by (symmetry; apply Z.leb_le; lia).
  reflexivity.
Qed.

Lemma div_eucl_eq a b : Z.div_eucl a b = (a / b, a mod b).
Proof. unfold Z.div, Z.modulo. destruct (Z.div_eucl a b). reflexivity. Qed.

(** Division by 2^64 is exact: it lowers the exponent by 64. *)
Lemma div_two64 m e :
  Zpos (digits2_pos m) = 53 -> -52 <= e <= 12 ->
  div (S754_finite false m e) (S754_finite false 4503599627370496 12)
  = S754_finite false m (e - 64).
Proof.
  intros Hd He. unfold div, prec, emax, SFdiv, SFdiv_core_binary.
  cbn [Zdigits2]. rewrite Hd.
  change (Zpos (digits2_pos 4503599627370496)) with 53.
  unfold fexp, emin.
  replace (Z.min (Z.max (53 + e - (53 + 12) - 53) (3 - 1024 - 53)) (e - 12)) with (e - 65) by lia.
  replace (e - 12 - (e - 65)) with 53 by lia.
  rewrite div_eucl_eq.
  rewrite Z.shiftl_mul_pow2 by lia.
  replace (Zpos m * 2 ^ 53) with (Zpos m~0 * 4503599627370496) by (rewrite Pos2Z.inj_xO; lia).
  rewrite Z.div_mul, Z.mod_mul by lia.
  change (new_location 4503599627370496 0) with loc_Exact.
  cbn beta iota.
  change (xorb false false) with false.
  rewrite (round_aux_54_even false m (e - 65) Hd) by lia.
  f_equal. lia.
Qed.

Lemma digits2_pos_iter_xO p k :
  Zpos (digits2_pos (Pos.iter xO p k)) = Zpos (digits2_pos p) + Zpos k.
Proof.
  induction k as [ | k IH] using Pos.peano_ind.
  - simpl. lia.
  - rewrite Pos.iter_succ. cbn [digits2_pos]. rewrite Pos2Z.inj_succ, IH. lia.
Qed.

(** The conversion of an integer of at most 53 bits is exact. *)
Lemma of_Z_small p :
  Zpos (digits2_pos p) <= 53 ->
  exists m, of_Z (Zpos p) = S754_finite false m (Zpos (digits2_pos p) - 53) /\
            Zpos (digits2_pos m) = 53.
Proof.
  intros Hd. unfold of_Z, prec, emax, binary_normalize, binary_round.
  unfold fexp, emin.
  set (d := Zpos (digits2_pos p)) in *.
  assert (0 < d) as Hpos by (unfold d; lia).
  replace (Z.max (d + 0 - 53) (3 - 1024 - 53)) with (d - 53) by lia.
  unfold shl_align.
  replace (d - 53 - 0) with (d - 53) by lia.
  destruct (d - 53) as [ | k | k] eqn:Ek; try lia.
  - exists p. split; [ | fold d; lia].
    rewrite round_aux_53; [reflexivity | fold d; lia | lia].
  - exists (Pos.iter xO p k).
    assert (Zpos (digits2_pos (Pos.iter xO p k)) = 53) as Hk.
    { rewrite digits2_pos_iter_xO. fold d. lia. }
    split; [ | exact Hk].
    rewrite round_aux_53; [reflexivity | exact Hk | lia].
Qed.

(** The second rounding stage on a mantissa of 53 bits, or on 2^53. *)
Lemma second_stage s (m1 e : Z) :
  2 ^ 52 <= m1 <= 2 ^ 53 -> 0 <= e <= 900 ->
  (let '(mrs, e') := shr_fexp 53 1024 m1 e loc_Exact in
   match shr_m mrs with
   | Z0 => S754_zero s
   | Zpos m => if e' <=? 1024 - 53 then S754_finite s m e' else S754_infinity s
   | Zneg _ => S754_nan
   end)
  = if m1 <? 2 ^ 53 then S754_finite s (Z.to_pos m1) e
    else S754_finite s 4503599627370496 (e + 1).
Proof.
  intros Hm He.
  destruct m1 as [ | q | q]; try lia.
  destruct (Z.ltb_spec (Zpos q) (2 ^ 53)) as [Hlt | Hge].
  - assert (Zpos (digits2_pos q) = 53) as Hd by (apply digits2_pos_unique; lia).
    rewrite (shr_fexp_53 q e Hd) by lia. cbn [shr_m].
    replace (e <=? 1024 - 53) with true by (symmetry; apply Z.leb_le; lia).
    reflexivity.
  - assert (q = 9007199254740992%positive) as -> by lia.
    rewrite (shr_fexp_54_even 4503599627370496 e eq_refl) by lia. cbn [shr_m].
    replace (e + 1 <=? 1024 - 53) with true by (symmetry; apply Z.leb_le; lia).
    reflexivity.
Qed.

Lemma shiftr_digits p k :
  Zpos (digits2_pos p) = 53 + Zpos k ->
  2 ^ 52 <= Z.shiftr (Zpos p) (Zpos k) < 2 ^ 53.
Proof.
  intros Hd. pose proof (digits2_pos_bounds p) as [Hlo Hhi]. rewrite Hd in Hlo, Hhi.
  rewrite Z.shiftr_div_pow2 by lia.
  assert (0 < 2 ^ Zpos k) as Hk by (apply Z.pow_pos_nonneg; lia).
  replace (53 + Zpos k - 1) with (52 + Zpos k) in Hlo by lia.
  rewrite Z.pow_add_r in Hlo, Hhi by lia.
  split.
  - apply Z.div_le_lower_bound; lia.
  - apply Z.div_lt_upper_bound; lia.
Qed.

(** The conversion of an integer of more than 53 bits: the mantissa is the
    integer shifted right, rounded up or not. *)
Lemma of_Z_large p k :
  Zpos (digits2_pos p) = 53 + Zpos k -> Zpos k <= 900 ->
  let m0 := Z.shiftr (Zpos p) (Zpos k) in
  exists m1,
    m0 <= m1 <= m0 + 1 /\
    (Z.testbit (Zpos p) (Zpos k - 1) = false -> m1 = m0) /\
    (Z.testbit (Zpos p) (Zpos k - 1) = true -> Z.odd m0 = true -> m1 = m0 + 1) /\
    of_Z (Zpos p) = if m1 <? 2 ^ 53 then S754_finite false (Z.to_pos m1) (Zpos k)
                    else S754_finite false 4503599627370496 (Zpos k + 1).
Proof.
  intros Hd Hk m0.
  pose proof (shiftr_digits p k Hd) as Hm0. fold m0 in Hm0.
  unfold of_Z, prec, emax, binary_normalize, binary_round.
  unfold fexp at 1, emin. rewrite Hd.
  replace (Z.max (53 + Zpos k + 0 - 53) (3 - 1024 - 53)) with (Zpos k) by lia.
  unfold shl_align. replace (Z.pos k - 0) with (Z.pos k) by lia. cbv beta iota.
  unfold binary_round_aux.
  unfold shr_fexp at 1. cbn [Zdigits2 shr_record_of_loc]. rewrite Hd.
  unfold fexp at 1, emin.
  replace (Z.max (53 + Zpos k + 0 - 53) (3 - 1024 - 53) - 0) with (Zpos k) by lia.
  cbn [shr]. rewrite Z.add_0_l.
  destruct (iter_shr_1_spec k (Build_shr_record (Zpos p) false false)) as [M R];
    [simpl; lia | ]. cbn [shr_m] in M, R. fold m0 in M.
  set (mrs' := SpecFloat.iter_pos shr_1 k _) in *.
  set (m1 := round_nearest_even (shr_m mrs') (loc_of_shr_record mrs')).
  assert (m0 <= m1 <= m0 + 1 /\
          (shr_r mrs' = false -> m1 = m0) /\
          (shr_r mrs' = true -> Z.odd m0 = true -> m1 = m0 + 1)) as (B & RF & RT).
  { unfold m1. rewrite M. destruct mrs' as [mm [ | ] [ | ]]; cbn [shr_r loc_of_shr_record round_nearest_even];
      repeat split; try lia; try discriminate.
    - destruct (Z.even m0); lia.
    - destruct (Z.even m0); lia.
    - intros _ Ho. rewrite <- Z.negb_odd, Ho. reflexivity. }
  exists m1. rewrite R in RF, RT. repeat split; try tauto; try lia.
  apply (second_stage false m1 (Zpos k)); lia.
Qed.

Lemma digits_le_64 p : Zpos p < 2 ^ 64 -> Zpos (digits2_pos p) <= 64.
Proof.
  intros Hp. pose proof (digits2_pos_bounds p) as [Hlo _].
  destruct (Z.le_gt_cases (Zpos (digits2_pos p)) 64) as [ | Hgt]; [assumption | ].
  assert (2 ^ 64 <= 2 ^ (Zpos (digits2_pos p) - 1)) by (apply Z.pow_le_mono_r; lia). lia.
Qed.

(** The shape of [float64(h)] for a [uint64] [h] above 0: a mantissa of 53
    bits and an exponent of at most 12, which is 12 exactly from
    [2^64 - 1024] on, where the conversion rounds up to [2^64]. *)
Lemma of_Z_shape h :
  0 < h < 2 ^ 64 ->
  exists m e,
    of_Z h = S754_finite false m e /\ Zpos (digits2_pos m) = 53 /\ -52 <= e <= 12 /\
    (h < 2 ^ 64 - 1024 -> e <= 11) /\
    (2 ^ 64 - 1024 <= h -> m = 4503599627370496%positive /\ e = 12).
Proof.
  intros [Hpos Hlt]. destruct h as [ | p | p]; try lia.
  pose proof (digits_le_64 p Hlt) as Hd64.
  pose proof (digits2_pos_bounds p) as [Dlo Dhi].
  destruct (Z.le_gt_cases (Zpos (digits2_pos p)) 53) as [Hsmall | Hlarge].
  - destruct (of_Z_small p Hsmall) as (m & E & Hm).
    assert (2 ^ Zpos (digits2_pos p) <= 2 ^ 53) by (apply Z.pow_le_mono_r; lia).
    exists m, (Zpos (digits2_pos p) - 53).
    split; [exact E | split; [exact Hm | split; [lia | split; intros Hh; lia]]].
  - set (k := Z.to_pos (Zpos (digits2_pos p) - 53)).
    assert (Zpos (digits2_pos p) = 53 + Zpos k) as Hd by (unfold k; lia).
    destruct (of_Z_large p k Hd ltac:(lia)) as (m1 & B & RF & RT & E).
    pose proof (shiftr_digits p k Hd) as Hm0.
    set (m0 := Z.shiftr (Zpos p) (Zpos k)) in *.
    assert (Zpos p < 2 ^ 64 - 1024 -> Zpos k = 11 -> m1 < 2 ^ 53) as Hbelow.
    { intros Hh Hk. destruct (Z.lt_ge_cases m1 (2 ^ 53)) as [ | Hge]; [assumption | exfalso].
      assert (m0 = 2 ^ 53 - 1) as Hm0e by lia.
      unfold m0 in Hm0e. rewrite Hk, Z.shiftr_div_pow2 in Hm0e by lia.
      assert (Z.testbit (Zpos p) (Zpos k - 1) = false) as Hbit.
      { rewrite Hk. apply Z.testbit_false; [lia | ].
        assert (Zpos p / 2 ^ (11 - 1) = 2 ^ 54 - 2) as ->; [ | reflexivity].
        pose proof (Z.div_mod (Zpos p) (2 ^ 11) ltac:(lia)) as Hdm.
        pose proof (Z.mod_pos_bound (Zpos p) (2 ^ 11) ltac:(lia)) as Hmb.
        symmetry. apply (Z.div_unique _ _ _ (Zpos p - (2 ^ 54 - 2) * 2 ^ (11 - 1))); lia. }
      specialize (RF Hbit). lia. }
    assert (2 ^ 64 - 1024 <= Zpos p -> Zpos k = 11 /\ m1 = 2 ^ 53) as Habove.
    { intros Hh.
      assert (Zpos k = 11) as Hk.
      { assert (Zpos (digits2_pos p) = 64); [ | lia].
        apply digits2_pos_unique. lia. }
      split; [exact Hk | ].
      assert (m0 = 2 ^ 53 - 1) as Hm0e.
      { unfold m0. rewrite Hk, Z.shiftr_div_pow2 by lia.
        symmetry. apply (Z.div_unique _ _ _ (Zpos p - (2 ^ 53 - 1) * 2 ^ 11)); lia. }
      assert (Z.testbit (Zpos p) (Zpos k - 1) = true) as Hbit.
      { rewrite Hk. apply Z.testbit_true; [lia | ].
        assert (Zpos p / 2 ^ (11 - 1) = 2 ^ 54 - 1) as ->; [ | reflexivity].
        symmetry. apply (Z.div_unique _ _ _ (Zpos p - (2 ^ 54 - 1) * 2 ^ (11 - 1))); lia. }
      rewrite (RT Hbit); [lia | ]. rewrite Hm0e. reflexivity. }
    destruct (Z.ltb_spec m1 (2 ^ 53)) as [Hm1 | Hm1].
    + exists (Z.to_pos m1), (Zpos k). split; [exact E | ].
      split; [apply digits2_pos_unique; rewrite Z2Pos.id by lia; lia | ].
      split; [lia | split; [lia | ]].
      intros Hh. destruct (Habove Hh). lia.
    + exists 4503599627370496%positive, (Zpos k + 1). split; [exact E | ].
      split; [reflexivity | ]. split; [lia | split].
      * intros Hh. destruct (Z.eq_dec (Zpos k) 11) as [Hk | Hk]; [ | lia].
        specialize (Hbelow Hh Hk). lia.
      * intros Hh. destruct (Habove Hh). split; [reflexivity | lia].
Qed.

(** Below [2^64 - 1024] the normalised hash is under 1. *)
Lemma normalised_below_one h :
  0 <= h < 2 ^ 64 - 1024 -> lt (normalised h) one = true.
Proof.
  intros [Hlo Hhi]. destruct (Z.eq_dec h 0) as [-> | Hne]; [reflexivity | ].
  destruct (of_Z_shape h ltac:(lia)) as (m & e & E & Hd & He & Hbelow & _).
  unfold normalised. rewrite E, of_Z_MaxUint64, (div_two64 m e Hd He).
  specialize (Hbelow Hhi).
  change one with (S754_finite false 4503599627370496 (-52)).
  unfold lt, SFltb, SFcompare.
  replace (e - 64 ?= -52) with Lt by (symmetry; apply Z.compare_lt_iff; lia).
  reflexivity.
Qed.

(** From [2^64 - 1024] on the normalised hash is 1. *)
Lemma normalised_at_top h :
  2 ^ 64 - 1024 <= h < 2 ^ 64 -> normalised h = one.
Proof.
  intros [Hlo Hhi].
  destruct (of_Z_shape h ltac:(lia)) as (m & e & E & Hd & He & _ & Habove).
  destruct (Habove Hlo) as [-> ->].
  unfold normalised. rewrite E, of_Z_MaxUint64. reflexivity.
Qed.

End F64Facts.

(** ** The score *)

Section Score.

Context {L : MathLog} `{!MathLogSpec L}.

Import F64.

Lemma computeScore_unfold keyHash nodeHash w :
  computeScore keyHash nodeHash w
  = div (neg w) (Log (normalised (combineHashes keyHash nodeHash))).
Proof. reflexivity. Qed.

Lemma combineHashes_range a b : U64.in_range (combineHashes a b).
Proof. apply U64Facts.wrap64_range. Qed.

Lemma combineHashes_nonneg a b : 0 <= combineHashes a b.
Proof. apply combineHashes_range. Qed.

(** Where the combined hash is 0 the normalised value is 0, its logarithm
    is [-Inf], and a finite positive weight over it is [+0]. *)
Lemma computeScore_at_zero keyHash nodeHash w :
  finite_pos w = true -> combineHashes keyHash nodeHash = 0 ->
  computeScore keyHash nodeHash w = pzero.
Proof.
  intros Hw Hh. rewrite computeScore_unfold, Hh.
  change (normalised 0) with (S754_zero false). rewrite Log_zero.
  destruct w as [s | s | | [ | ] m e]; try discriminate. reflexivity.
Qed.

(** Where the normalised value is 1 its logarithm is 0, and a finite
    positive weight, negated, over it is [-Inf]. *)
Lemma computeScore_at_one keyHash nodeHash w :
  finite_pos w = true -> normalised (combineHashes keyHash nodeHash) = one ->
  computeScore keyHash nodeHash w = ninf.
Proof.
  intros Hw Hu. rewrite computeScore_unfold, Hu, Log_one.
  destruct w as [s | s | | [ | ] m e]; try discriminate. reflexivity.
Qed.

(** Where the combined hash is 0 the weight [+Inf] scores
    [-Inf / -Inf], a NaN. *)
Lemma computeScore_infinite_weight keyHash nodeHash :
  combineHashes keyHash nodeHash = 0 ->
  computeScore keyHash nodeHash pinf = S754_nan.
Proof.
  intros Hh. rewrite computeScore_unfold, Hh.
  change (normalised 0) with (S754_zero false). rewrite Log_zero. reflexivity.
Qed.

(** Where the normalised hash is below 1 the score of a finite positive
    weight is at least 0. *)
Lemma computeScore_nonneg_below_one keyHash nodeHash w :
  finite_pos w = true ->
  lt (normalised (combineHashes keyHash nodeHash)) one = true ->
  nonneg (computeScore keyHash nodeHash w) = true.
Proof.
  intros Hw Hu. rewrite computeScore_unfold.
  pose proof (F64Facts.normalised_signed _ (combineHashes_nonneg keyHash nodeHash)) as Hs.
  fold (normalised (combineHashes keyHash nodeHash)) in Hs.
  destruct (normalised (combineHashes keyHash nodeHash)) as [s | s | | s m e] eqn:E;
    simpl in Hs; try subst s; try contradiction; try discriminate.
  - rewrite Log_zero.
    destruct w as [s | s | | [ | ] mw ew]; try discriminate. reflexivity.
  - pose proof (Log_below_one (S754_finite false m e) eq_refl Hu) as Hl.
    destruct (Log (S754_finite false m e)) as [s | s | | [ | ] ml el]; try discriminate.
    destruct w as [s | s | | [ | ] mw ew]; try discriminate.
    apply F64Facts.signed_false_nonneg.
    apply (F64Facts.div_finite_signed true mw ew true ml el).
Qed.

(** C5, with the bound on the combined hash that it needs.  For every
    pair of hashes and every finite weight above 0: where the combined hash
    is below [2^64 - 1024] the score is at least 0, and so not NaN; where
    the combined hash is 0, the degenerate case, the score is [+0], neither
    NaN nor an infinity; from [2^64 - 1024] on, where [float64] rounds the
    hash up to [2^64] and the normalised value is 1, the score is [-Inf]. *)
Theorem computeScore_sign (keyHash nodeHash : Z) (w : float64) :
  finite_pos w = true ->
  let h := combineHashes keyHash nodeHash in
  let sc := computeScore keyHash nodeHash w in
  (h < 2 ^ 64 - 1024 -> nonneg sc = true /\ is_nan sc = false) /\
  (h = 0 -> sc = pzero) /\
  (2 ^ 64 - 1024 <= h -> sc = ninf).
Proof.
  intros Hw h sc.
  pose proof (combineHashes_range keyHash nodeHash) as Hr. fold h in Hr.
  unfold U64.in_range, U64.modulus in Hr.
  split; [ | split].
  - intros Hh.
    assert (nonneg sc = true) as Hnn.
    { apply computeScore_nonneg_below_one; [exact Hw | ].
      apply F64Facts.normalised_below_one. fold h. lia. }
    split; [exact Hnn | ].
    destruct sc; try reflexivity; discriminate.
  - intros Hh. now apply computeScore_at_zero.
  - intros Hh. apply computeScore_at_one; [exact Hw | ].
    apply F64Facts.normalised_at_top. fold h. lia.
Qed.

(** A weight of 0 scores [+0] and a weight of [+Inf] scores [+Inf] wherever
    the normalised hash lies strictly between 0 and 1. *)
Lemma computeScore_extreme_weights keyHash nodeHash :
  finite_pos (normalised (combineHashes keyHash nodeHash)) = true ->
  lt (normalised (combineHashes keyHash nodeHash)) one = true ->
  computeScore keyHash nodeHash pzero = pzero /\
  computeScore keyHash nodeHash pinf = pinf.
Proof.
  intros Hpos Hlt. rewrite !computeScore_unfold.
  pose proof (Log_below_one _ Hpos Hlt) as Hl.
  destruct (Log (normalised (combineHashes keyHash nodeHash))) as [s | s | | [ | ] m e];
    try discriminate.
  split; reflexivity.
Qed.

End Score.

(** ** A lookup that every logarithm decides *)

Section AnyLog.

Context {L : MathLog} {S : SortSlice} `{!MathLogSpec L} `{!SortSliceSpec S}.

Import FNV Samples.

(** On the ring of a with weight 0 and b with weight [+Inf], the key "foo"
    scores a at [+0] and b at [+Inf], whatever the values of [math.Log]
    inside (0, 1) and whatever the sort does with ties: [Lookup] returns b,
    the last node of the slice.  After [Remove "a"] the ring still holds a,
    holds b no more, and [Lookup] returns a. *)
Lemma Lookup_last_then_Remove_first :
  let r' := Remove "a" (snd (Lookup "foo" ring_a0_binf)) in
  List ring_a0_binf = ["a"; "b"] /\
  fst (Lookup "foo" ring_a0_binf) = Ok "b" /\
  List r' = ["a"] /\
  fst (Lookup "foo" r') = Ok "a".
Proof.
  intros r'.
  set (kh := write offset64 "foo").
  set (na := mkNode "a" (write offset64 "a") F64.pzero).
  set (nb := mkNode "b" (write offset64 "b") F64.pinf).
  assert (nodes ring_a0_binf = [na; nb]) as Hnodes by (vm_compute; reflexivity).
  destruct (computeScore_extreme_weights kh (hash na)) as [Ha _];
    [vm_compute; reflexivity | vm_compute; reflexivity | ].
  destruct (computeScore_extreme_weights kh (hash nb)) as [_ Hb];
    [vm_compute; reflexivity | vm_compute; reflexivity | ].
  assert (nodes r' = [na]) as Hfront.
  { unfold r'. rewrite Lookup_head. cbn [snd]. rewrite LookupAll_unfold. cbn [snd].
    vm_compute. reflexivity. }
  split; [unfold List; now rewrite Hnodes | split; [ | split]].
  - rewrite Lookup_head, LookupAll_unfold. cbn [fst]. rewrite Hnodes.
    change (Sum64 (fed ring_a0_binf "foo")) with kh.
    unfold ranking. cbn [map].
    change (weight na) with F64.pzero. change (weight nb) with F64.pinf.
    rewrite Ha, Hb. rewrite sortSlice_swaps_two; reflexivity.
  - unfold List. now rewrite Hfront.
  - rewrite Lookup_head, LookupAll_unfold. cbn [fst]. rewrite Hfront.
    now rewrite ranking_singleton.
Qed.

End AnyLog.

Module ConcreteScore.

Import FNV F64 Samples.

#[local] Existing Instance SignLog.mathlog.
#[local] Existing Instance SignLogFacts.mathlog_spec.

Example combine_key_to_max : combineHashes key_to_max 0 = U64.MaxUint64.
Proof. vm_compute. reflexivity. Qed.

(** Conversion to [float64] rounds every hash from [2^64 - 1024] on up to
    [2^64], the value of [float64(math.MaxUint64)]: the normalised value
    of such a hash is 1.  One below, it is under 1. *)
Example normalised_at_the_top :
  normalised U64.MaxUint64 = one /\
  normalised (U64.modulus - 1024) = one /\
  lt (normalised (U64.modulus - 1025)) one = true.
Proof. vm_compute. repeat split. Qed.

Lemma computeScore_sign_witness :
  let keyHash := write offset64 "foo" in
  let nodeHash := write offset64 "a" in
  let h := combineHashes keyHash nodeHash in
  let sc := computeScore keyHash nodeHash defaultWeight in
  finite_pos defaultWeight = true /\
  h < 2 ^ 64 - 1024 /\
  (h < 2 ^ 64 - 1024 -> nonneg sc = true /\ is_nan sc = false) /\
  (h = 0 -> sc = pzero) /\
  (2 ^ 64 - 1024 <= h -> sc = ninf).
Proof.
  split; [reflexivity | split; [vm_compute; reflexivity | ]].
  apply (computeScore_sign (write offset64 "foo") (write offset64 "a") defaultWeight).
  reflexivity.
Defined.

(** C5, at a combined hash of [2^64 - 1].  The key hash [key_to_max]
    and the node hash 0 combine into [2^64 - 1], whose normalised value is
    1; the logarithm of 1 is 0, and the score of the weight 1.0 is
    [-1.0 / 0 = -Inf]: below 0, and an infinity.  And at the weight [+Inf],
    which is above 0 too, equal hashes (combined hash 0) score
    [-Inf / -Inf], a NaN. *)
Lemma computeScore_negative_infinity :
  U64.in_range key_to_max /\ U64.in_range 0 /\
  finite_pos defaultWeight = true /\
  computeScore key_to_max 0 defaultWeight = ninf /\
  nonneg (computeScore key_to_max 0 defaultWeight) = false /\
  is_inf (computeScore key_to_max 0 defaultWeight) = true /\
  lt pzero pinf = true /\
  is_nan (computeScore 0 0 pinf) = true.
Proof.
  assert (computeScore key_to_max 0 defaultWeight = ninf) as E.
  { apply computeScore_at_one; [reflexivity | vm_compute; reflexivity]. }
  rewrite E. repeat split; try (vm_compute; congruence).
Qed.

End ConcreteScore.

(** ** Further properties of the code *)

Section Further.

Context {H : Hash64}.

(** What [Remove] does on a ring that a sequence of calls has built: on a
    name that is present it drops the last node of the slice, whichever node
    bears the name; on a name that is absent it changes nothing. *)
Theorem Remove_effect (h0 : hstate) (cs : list Call) (x : string) :
  let r := run cs (NewWithHash h0) in
  (In x (List r) ->
   List (Remove x r) = take (Len r - 1) (List r) /\ hasher (Remove x r) = hasher r) /\
  (~ In x (List r) -> Remove x r = r).
Proof.
  intros r. split.
  - intros Hin. rewrite (Remove_present r x); [ | apply run_sorted; constructor | exact Hin].
    split; [ | reflexivity]. unfold List, Len. cbn [nodes].
    change (map name) with (fmap (M := list) name). now rewrite fmap_take.
  - apply Remove_absent.
Qed.

(** What [Weight] returns on a ring that a sequence of calls has built: the
    weight of the first node whose name is not below the name asked for,
    whatever that name and that weight are, and [+0] when there is no such
    node, which is when every name of the ring is below the name asked
    for. *)
Theorem Weight_lower_bound (h0 : hstate) (cs : list Call) (x : string) :
  let r := run cs (NewWithHash h0) in
  exists ix,
    (ix <= length (nodes r))%nat /\
    (forall k n, (k < ix)%nat -> nodes r !! k = Some n -> String.ltb (name n) x = true) /\
    (forall k n, (ix <= k)%nat -> nodes r !! k = Some n -> String.ltb (name n) x = false) /\
    Weight x r = match nodes r !! ix with
                 | Some n => weight n
                 | None => F64.pzero
                 end /\
    (nodes r !! ix = None <->
     forall n, In n (nodes r) -> String.ltb (name n) x = true) /\
    ((forall n, In n (nodes r) -> String.ltb (name n) x = true) ->
     Weight x r = F64.pzero).
Proof.
  intros r. exists (Search (length (nodes r)) (cmp r x)).
  destruct (Search_sorted r x) as (Hle & Hlo & Hhi); [apply run_sorted; constructor | ].
  set (ix := Search (length (nodes r)) (cmp r x)) in *.
  assert (nodes r !! ix = None <->
          forall n, In n (nodes r) -> String.ltb (name n) x = true) as Hnone.
  { split.
    - intros Hn n Hin. apply (proj2 (list_elem_of_In _ _)) in Hin.
      apply list_elem_of_lookup_1 in Hin as [k Hk].
      apply (Hlo k n); [ | exact Hk].
      apply lookup_ge_None_1 in Hn. apply lookup_lt_Some in Hk. lia.
    - intros Hall. destruct (nodes r !! ix) as [n | ] eqn:Hn; [exfalso | reflexivity].
      pose proof (Hhi ix n (Nat.le_refl _) Hn) as Hge.
      rewrite Hall in Hge; [discriminate | ].
      apply list_elem_of_In. eapply list_elem_of_lookup_2. exact Hn. }
  split; [exact Hle | split; [exact Hlo | split; [exact Hhi | ]]].
  split; [apply Weight_at_index | split; [exact Hnone | ]].
  intros Hall. rewrite Weight_at_index. fold ix.
  now rewrite (proj2 Hnone Hall).
Qed.

End Further.

Section FurtherLookups.

Context {H : Hash64} {L : MathLog} {S : SortSlice} `{!SortSliceSpec S}.

(** [LookupAll] returns every name of the ring once, in some order, and
    leaves the node slice as it was; [Lookup] on a ring that is not empty
    returns the first of them. *)
Theorem LookupAll_permutes (key : string) (r : Ring) :
  Permutation (fst (LookupAll key r)) (List r) /\
  length (fst (LookupAll key r)) = Len r /\
  nodes (snd (LookupAll key r)) = nodes r /\
  fst (Lookup key r) = Ok (hd "" (fst (LookupAll key r))).
Proof.
  split; [apply LookupAll_perm | split; [apply LookupAll_length | split; [reflexivity | ]]].
  rewrite Lookup_head. cbn [fst]. now destruct (fst (LookupAll key r)).
Qed.

End FurtherLookups.

(** [float64(h) / float64(math.MaxUint64)] is below 1 exactly for the hashes
    below [2^64 - 1024], and is 1 for the 1024 hashes from there on. *)
Theorem normalised_threshold (h : Z) :
  U64.in_range h ->
  (h < 2 ^ 64 - 1024 -> F64.lt (normalised h) F64.one = true) /\
  (2 ^ 64 - 1024 <= h -> normalised h = F64.one).
Proof.
  unfold U64.in_range, U64.modulus. intros Hr. split; intros Hh.
  - apply F64Facts.normalised_below_one. lia.
  - apply F64Facts.normalised_at_top. lia.
Qed.

Module FurtherWitnesses.

Import FNV Samples.

#[local] Existing Instance SignLog.mathlog.
#[local] Existing Instance InsertionSort.sorter.
#[local] Existing Instance SignLogFacts.mathlog_spec.
#[local] Existing Instance InsertionSortFacts.sorter_spec.

Lemma LookupAll_permutes_witness :
  Permutation (fst (LookupAll "foo" ring_abcde)) (List ring_abcde) /\
  length (fst (LookupAll "foo" ring_abcde)) = Len ring_abcde /\
  nodes (snd (LookupAll "foo" ring_abcde)) = nodes ring_abcde /\
  fst (Lookup "foo" ring_abcde) = Ok (hd "" (fst (LookupAll "foo" ring_abcde))).
Proof. exact (LookupAll_permutes "foo" ring_abcde). Defined.

Lemma normalised_threshold_witness :
  U64.in_range (2 ^ 64 - 1025) /\
  (2 ^ 64 - 1025 < 2 ^ 64 - 1024 -> F64.lt (normalised (2 ^ 64 - 1025)) F64.one = true) /\
  (2 ^ 64 - 1024 <= 2 ^ 64 - 1025 -> normalised (2 ^ 64 - 1025) = F64.one).
Proof.
  assert (U64.in_range (2 ^ 64 - 1025)) as Hr by (unfold U64.in_range, U64.modulus; lia).
  split; [exact Hr | exact (normalised_threshold (2 ^ 64 - 1025) Hr)].
Defined.

Lemma Lookup_last_then_Remove_first_witness :
  let r' := Remove "a" (snd (Lookup "foo" ring_a0_binf)) in
  List ring_a0_binf = ["a"; "b"] /\
  fst (Lookup "foo" ring_a0_binf) = Ok "b" /\
  List r' = ["a"] /\
  fst (Lookup "foo" r') = Ok "a".
Proof. exact Lookup_last_then_Remove_first. Defined.

End FurtherWitnesses.

(** ** The order of the scores *)

Module F64OrdFacts.

Import F64 F64Ord.

(** Go's [x < y] on floats that are not NaN is the order of their keys. *)
Lemma lt_key x y :
  is_nan x = false -> is_nan y = false ->
  (lt x y = true <-> lex_lt (key x) (key y)).
Proof.
  unfold lt, SFltb, lex_lt.
  destruct x as [sx | [ | ] | | [ | ] mx ex]; destruct y as [sy | [ | ] | | [ | ] my ey];
    try discriminate; intros _ _; cbn [SFcompare key fst snd];
    try (split; [discriminate | lia]); try (split; [lia | reflexivity]).
  - destruct (Z.compare_spec ex ey) as [He | He | He].
    + change (Pos.compare_cont Eq mx my) with (Pos.compare mx my).
      destruct (Pos.compare_spec mx my) as [Hm | Hm | Hm]; simpl;
        (split; [try discriminate; lia | try reflexivity; lia]).
    + split; [discriminate | lia].
    + split; [lia | reflexivity].
  - destruct (Z.compare_spec ex ey) as [He | He | He].
    + change (Pos.compare_cont Eq mx my) with (Pos.compare mx my).
      destruct (Pos.compare_spec mx my) as [Hm | Hm | Hm]; simpl;
        (split; [try discriminate; lia | try reflexivity; lia]).
    + split; [lia | reflexivity].
    + split; [discriminate | lia].
Qed.

Lemma lt_not_nan x y : lt x y = true -> is_nan x = false /\ is_nan y = false.
Proof.
  unfold lt, SFltb.
  destruct x as [sx | sx | | sx mx ex]; destruct y as [sy | sy | | sy my ey];
    simpl; try discriminate; auto.
Qed.

(** On elements whose scores are not NaN, "scores above" is a strict weak
    ordering. *)
Lemma gt_strict_weak {A} (sc : A -> float64) (l : list A) :
  (forall a, In a l -> is_nan (sc a) = false) ->
  StrictWeakOn (fun a b => gt (sc a) (sc b)) l.
Proof.
  intros Hnan.
  assert (forall a b, In a l -> In b l ->
            (gt (sc a) (sc b) = true <-> lex_lt (key (sc b)) (key (sc a)))) as Hk.
  { intros a b Ha Hb. unfold gt. apply (lt_key (sc b) (sc a)); auto. }
  assert (forall a b, In a l -> In b l ->
            (gt (sc a) (sc b) = false <-> ~ lex_lt (key (sc b)) (key (sc a)))) as Hn.
  { intros a b Ha Hb. rewrite <- (Hk a b Ha Hb). destruct (gt (sc a) (sc b)); split; congruence. }
  constructor.
  - intros x Hx. apply (Hn x x Hx Hx). unfold lex_lt. lia.
  - intros x y z Hx Hy Hz Hxy Hyz.
    apply (Hk x y Hx Hy) in Hxy. apply (Hk y z Hy Hz) in Hyz. apply (Hk x z Hx Hz).
    unfold lex_lt in *. lia.
  - intros x y z Hx Hy Hz H1 H2 H3 H4.
    apply (Hn x y Hx Hy) in H1. apply (Hn y x Hy Hx) in H2.
    apply (Hn y z Hy Hz) in H3. apply (Hn z y Hz Hy) in H4.
    split; [apply (Hn x z Hx Hz) | apply (Hn z x Hz Hx)]; unfold lex_lt in *; lia.
Qed.

End F64OrdFacts.

(** ** The ranking by score *)

Section RankingFacts.

Context {H : Hash64} {L : MathLog} {S : SortSlice}.

#[local] Open Scope nat_scope.

Lemma ranking_ranked keyHash l :
  ranking keyHash l = map (fun sn => name (node sn)) (ranked keyHash l).
Proof. reflexivity. Qed.

(** The key hash of a lookup does not depend on what the hasher was fed
    before. *)
Lemma fed_hash_of `{!Hash64Spec H} r key : Sum64 (fed r key) = hash_of key.
Proof. unfold fed, hash_of. now rewrite Reset_initial. Qed.

Lemma gt_irrefl x : F64.gt x x = false.
Proof.
  unfold F64.gt, SFltb. destruct x as [s | [ | ] | | [ | ] m e]; simpl; try reflexivity.
  - now rewrite Z.compare_refl, Pos.compare_cont_refl.
  - now rewrite Z.compare_refl, Pos.compare_cont_refl.
Qed.

Lemma StronglySorted_lookup {A} (R : A -> A -> Prop) (l : list A) i j a b :
  StronglySorted R l -> i < j -> l !! i = Some a -> l !! j = Some b -> R a b.
Proof.
  intros Hs. revert i j a b.
  induction Hs as [ | x l Hs IH Hall]; intros i j a b Hij Hi Hj.
  - discriminate.
  - destruct j as [ | j]; [lia | ]. simpl in Hj.
    destruct i as [ | i]; simpl in Hi.
    + injection Hi as <-. rewrite Forall_forall in Hall. apply Hall.
      eapply list_elem_of_lookup_2. exact Hj.
    + apply (IH i j); auto. lia.
Qed.

Lemma names_injective (l : list Node) a b :
  List.NoDup (map name l) -> In a l -> In b l -> name a = name b -> a = b.
Proof.
  induction l as [ | x l IH]; simpl; [intros _ [] | ].
  intros Hnd Ha Hb Hab. apply NoDup_cons_iff in Hnd as [Hx Hnd].
  destruct Ha as [<- | Ha]; destruct Hb as [<- | Hb]; auto.
  - elim Hx. rewrite Hab. now apply in_map.
  - elim Hx. rewrite <- Hab. now apply in_map.
Qed.

(** The score of a finite weight above 0 is never NaN. *)
Lemma score_not_nan `{!MathLogSpec L} keyHash nodeHash w :
  F64.finite_pos w = true -> F64.is_nan (computeScore keyHash nodeHash w) = false.
Proof.
  intros Hw. pose proof (combineHashes_range keyHash nodeHash) as Hr.
  unfold U64.in_range, U64.modulus in Hr.
  destruct (Z.lt_ge_cases (combineHashes keyHash nodeHash) (2 ^ 64 - 1024)%Z) as [Hlt | Hge].
  - assert (F64.nonneg (computeScore keyHash nodeHash w) = true) as Hnn.
    { apply computeScore_nonneg_below_one; [exact Hw | ].
      apply F64Facts.normalised_below_one. lia. }
    destruct (computeScore keyHash nodeHash w); try reflexivity; discriminate.
  - rewrite computeScore_at_one; [reflexivity | exact Hw | ].
    apply F64Facts.normalised_at_top. lia.
Qed.

Section Ordered.

Context `{!SortSliceSpec S}.

Lemma ranked_perm keyHash l : Permutation (ranked keyHash l) (map (scored keyHash) l).
Proof. apply sortSlice_perm. Qed.

Lemma ranked_In keyHash l h :
  In h (ranked keyHash l) -> exists n, In n l /\ h = scored keyHash n.
Proof.
  intros Hin. apply (Permutation_in _ (ranked_perm keyHash l)) in Hin.
  apply in_map_iff in Hin as (n & <- & Hn). eauto.
Qed.

(** Where no score is NaN the scored nodes end in order. *)
Lemma ranked_ordered keyHash l :
  (forall n, In n l -> F64.is_nan (score_for keyHash n) = false) ->
  ordered_by by_score (ranked keyHash l).
Proof.
  intros Hnan. apply sortSlice_ordered.
  apply (F64OrdFacts.gt_strict_weak score).
  intros a Ha. apply in_map_iff in Ha as (n & <- & Hn). now apply Hnan.
Qed.

(** The head of an ordered ranking scores at least as much as every node. *)
Lemma ranked_head_max keyHash l h rest :
  ordered_by by_score (ranked keyHash l) ->
  ranked keyHash l = h :: rest ->
  forall m, In m l -> F64.gt (score_for keyHash m) (score h) = false.
Proof.
  intros Hord Hr m Hm. rewrite Hr in Hord.
  apply StronglySorted_cons in Hord as [Hall _]. rewrite Forall_forall in Hall.
  assert (In (scored keyHash m) (h :: rest)) as Hin.
  { rewrite <- Hr. apply (Permutation_in _ (Permutation_sym (ranked_perm keyHash l))).
    now apply in_map. }
  destruct Hin as [Heq | Hin]; [rewrite Heq; apply gt_irrefl | ].
  apply (Hall (scored keyHash m)). now apply list_elem_of_In.
Qed.

Lemma ranked_nonempty keyHash l x :
  In x l -> exists h rest, ranked keyHash l = h :: rest.
Proof.
  intros Hx. pose proof (Permutation_length (ranked_perm keyHash l)) as Hlen.
  rewrite length_map in Hlen.
  destruct (ranked keyHash l) as [ | h rest]; [ | eauto].
  destruct l; [destruct Hx | discriminate].
Qed.

(** A node that scores above every node of another name heads the
    ranking, whatever the sort does with ties. *)
Lemma ranked_head_strict_top keyHash l x :
  List.NoDup (map name l) -> strict_top keyHash x l ->
  exists h rest, ranked keyHash l = h :: rest /\ name (node h) = name x.
Proof.
  intros Hnd [Hx Htop].
  destruct (ranked_nonempty keyHash l x Hx) as (h & rest & Hr).
  exists h, rest. split; [exact Hr | ].
  destruct (ranked_In keyHash l h) as (n & Hn & ->); [rewrite Hr; now left | ].
  cbn [node scored].
  destruct (String.eqb_spec (name n) (name x)) as [He | Hne]; [exact He | exfalso].
  pose proof (Htop n Hn Hne) as Hgt.
  destruct (F64OrdFacts.lt_not_nan _ _ Hgt) as [Hnn Hnx].
  assert (forall m, In m l -> F64.is_nan (score_for keyHash m) = false) as Hnan.
  { intros m Hm. destruct (String.eqb_spec (name m) (name x)) as [Hmx | Hmx].
    - now rewrite (names_injective l m x Hnd Hm Hx Hmx).
    - now destruct (F64OrdFacts.lt_not_nan _ _ (Htop m Hm Hmx)). }
  pose proof (ranked_head_max keyHash l _ rest (ranked_ordered keyHash l Hnan) Hr x Hx) as Hmax.
  cbn [score scored] in Hmax. congruence.
Qed.

End Ordered.

End RankingFacts.

(** ** What a lookup returns *)

Section LookupOrder.

Context {H : Hash64} {L : MathLog} {S : SortSlice}.
Context `{!Hash64Spec H} `{!SortSliceSpec S}.

#[local] Open Scope nat_scope.

Lemma LookupAll_ranked key r :
  fst (LookupAll key r)
  = map (fun sn => name (node sn)) (ranked (hash_of key) (nodes r)).
Proof. rewrite LookupAll_unfold. cbn [fst]. now rewrite fed_hash_of, ranking_ranked. Qed.

Lemma Lookup_ranked_head key r h rest :
  ranked (hash_of key) (nodes r) = h :: rest ->
  fst (Lookup key r) = Ok (name (node h)).
Proof. intros Hr. rewrite Lookup_head. cbn [fst]. now rewrite LookupAll_ranked, Hr. Qed.

Lemma strict_top_sub keyHash x (l l' : list Node) :
  strict_top keyHash x l -> (forall n, In n l' -> In n l) -> In x l' ->
  strict_top keyHash x l'.
Proof. intros [_ Htop] Hsub Hx. split; [exact Hx | ]. intros n Hn. apply Htop. auto. Qed.

Lemma Lookup_top_name key r x :
  sorted_nodes (nodes r) -> strict_top (hash_of key) x (nodes r) ->
  fst (Lookup key r) = Ok (name x).
Proof.
  intros Hs Htop.
  destruct (ranked_head_strict_top (hash_of key) (nodes r) x (sorted_NoDup _ Hs) Htop)
    as (h & rest & Hr & Hname).
  rewrite (Lookup_ranked_head key r h rest Hr). now rewrite Hname.
Qed.

(** On a ring whose names are strictly ascending, a node that scores above
    every other node (none of which, then, has a NaN score) is what [Lookup]
    returns: ties among the others, and the order in which an unstable sort
    leaves them, do not matter. *)
Theorem Lookup_strict_top (key : string) (r : Ring) (x : Node) :
  sorted_nodes (nodes r) ->
  strict_top (hash_of key) x (nodes r) ->
  fst (Lookup key r) = Ok (name x) /\
  hd_error (fst (LookupAll key r)) = Some (name x).
Proof.
  intros Hs Htop.
  destruct (ranked_head_strict_top (hash_of key) (nodes r) x (sorted_NoDup _ Hs) Htop)
    as (h & rest & Hr & Hname).
  split.
  - rewrite (Lookup_ranked_head key r h rest Hr). now rewrite Hname.
  - rewrite LookupAll_ranked, Hr. simpl. now rewrite Hname.
Qed.

(** [Remove] of a present name, whatever the name, leaves the lookup of a
    key as it was when the node that scores above every other for the key is
    not the last node of the slice: the last node is the one that goes. *)
Theorem Remove_keeps_lookup_unless_last
    (key X : string) (r : Ring) (x z : Node) (front : list Node) :
  sorted_nodes (nodes r) ->
  nodes r = front ++ [z] ->
  In X (List r) ->
  strict_top (hash_of key) x (nodes r) ->
  name x <> name z ->
  fst (Lookup key r) = Ok (name x) /\
  fst (Lookup key (Remove X r)) = Ok (name x) /\
  Contains (name x) (Remove X r) = true.
Proof.
  intros Hs Hr HX Htop Hxz.
  assert (In x front) as Hxf.
  { destruct Htop as [Hx _]. rewrite Hr in Hx. apply in_app_or in Hx as [Hx | [-> | []]];
      [exact Hx | congruence]. }
  assert (nodes (Remove X r) = front) as Hfront.
  { rewrite (Remove_present r X Hs HX). cbn [nodes]. rewrite Hr, length_app. simpl.
    replace (length front + 1 - 1) with (length front) by lia. apply take_app_length. }
  split; [apply (Lookup_top_name key r x Hs Htop) | split].
  - apply Lookup_top_name.
    + now apply Remove_sorted.
    + rewrite Hfront. apply (strict_top_sub _ x (nodes r)); auto.
      intros n Hn. rewrite Hr. apply in_or_app. now left.
  - unfold Contains. rewrite Hfront. apply existsb_exists. exists x.
    split; [exact Hxf | apply String.eqb_refl].
Qed.

Section Positive.

Context `{!MathLogSpec L}.

Lemma positive_not_nan keyHash l :
  positive_weights l -> forall n, In n l -> F64.is_nan (score_for keyHash n) = false.
Proof. intros Hpos n Hn. apply score_not_nan. now apply Hpos. Qed.

(** On a ring whose weights are finite and above 0, [LookupAll] returns the
    names in the order of the scores, highest first: no node scores above a
    node that stands before it, and [Lookup] returns a node that no node
    scores above. *)
Theorem LookupAll_descending (key : string) (r : Ring) :
  positive_weights (nodes r) ->
  let kh := hash_of key in
  fst (LookupAll key r) = map (fun sn => name (node sn)) (ranked kh (nodes r)) /\
  Permutation (ranked kh (nodes r)) (map (scored kh) (nodes r)) /\
  (forall i j a b, i < j ->
     ranked kh (nodes r) !! i = Some a -> ranked kh (nodes r) !! j = Some b ->
     F64.gt (score b) (score a) = false) /\
  (nodes r <> [] ->
   exists top, In top (nodes r) /\ fst (Lookup key r) = Ok (name top) /\
     forall n, In n (nodes r) -> F64.gt (score_for kh n) (score_for kh top) = false).
Proof.
  intros Hpos kh.
  pose proof (ranked_ordered kh (nodes r) (positive_not_nan kh _ Hpos)) as Hord.
  split; [apply LookupAll_ranked | split; [apply ranked_perm | split]].
  - intros i j a b Hij Ha Hb.
    exact (StronglySorted_lookup _ _ i j a b Hord Hij Ha Hb).
  - intros Hne.
    destruct (nodes r) as [ | n0 l0] eqn:En; [congruence | ].
    destruct (ranked_nonempty kh (n0 :: l0) n0 ltac:(now left)) as (h & rest & Hr).
    destruct (ranked_In kh (n0 :: l0) h) as (top & Htop & Hh); [rewrite Hr; now left | ].
    exists top. split; [exact Htop | split].
    + rewrite (Lookup_ranked_head key r h rest); [now rewrite Hh | now rewrite En].
    + intros n Hn. pose proof (ranked_head_max kh (n0 :: l0) h rest Hord Hr n Hn) as Hmax.
      now rewrite Hh in Hmax.
Qed.

Lemma gt_trans a b c :
  F64.gt a b = true -> F64.gt b c = true -> F64.gt a c = true.
Proof.
  unfold F64.gt. fold (F64.lt b a) (F64.lt c b) (F64.lt c a). intros Hab Hbc.
  destruct (F64OrdFacts.lt_not_nan _ _ Hab) as [Hb Ha].
  destruct (F64OrdFacts.lt_not_nan _ _ Hbc) as [Hc _].
  apply (F64OrdFacts.lt_key b a Hb Ha) in Hab.
  apply (F64OrdFacts.lt_key c b Hc Hb) in Hbc.
  apply (F64OrdFacts.lt_key c a Hc Ha).
  unfold F64Ord.lex_lt in *. lia.
Qed.

(** The node slice after [AddWithWeight] of a name that is absent. *)
Lemma AddWithWeight_absent_nodes y w r :
  ~ In y (List r) ->
  exists ix, nodes (AddWithWeight y w r)
             = take ix (nodes r) ++ mkNode y (hash_of y) w :: drop ix (nodes r).
Proof.
  intros Hnot. exists (Search (length (nodes r)) (cmp r y)).
  rewrite AddWithWeight_splice.
  - cbn [nodes]. now rewrite fed_hash_of.
  - intros n Hn Hname. apply Hnot. unfold List. apply in_map_iff. exists n.
    split; [exact Hname | ]. apply list_elem_of_In. eapply list_elem_of_lookup_2. exact Hn.
Qed.

Lemma In_splice {A} (l : list A) ix (a b : A) :
  In a (take ix l ++ b :: drop ix l) <-> a = b \/ In a l.
Proof.
  rewrite in_app_iff. simpl.
  assert (In a l <-> In a (take ix l) \/ In a (drop ix l)) as ->
    by (rewrite <- in_app_iff, take_drop; reflexivity).
  intuition congruence.
Qed.

(** The rendezvous property of an addition.  On a ring with finite weights
    above 0 where one node scores above every other for a key, adding a
    name that is absent moves the key to the new node or leaves it where it
    was: to the new node when it scores above the old top, nowhere when it
    scores below. *)
Theorem AddWithWeight_moves_lookup_only_to_new_node
    (key y : string) (w : float64) (r : Ring) (x : Node) :
  sorted_nodes (nodes r) ->
  positive_weights (nodes r) ->
  F64.finite_pos w = true ->
  ~ In y (List r) ->
  strict_top (hash_of key) x (nodes r) ->
  let r' := AddWithWeight y w r in
  let sx := score_for (hash_of key) x in
  let sy := computeScore (hash_of key) (hash_of y) w in
  (fst (Lookup key r') = Ok (name x) \/ fst (Lookup key r') = Ok y) /\
  (F64.gt sx sy = true -> fst (Lookup key r') = Ok (name x)) /\
  (F64.gt sy sx = true -> fst (Lookup key r') = Ok y).
Proof.
  intros Hs Hpos Hw Hnot Htop r' sx sy.
  set (kh := hash_of key) in *.
  set (ny := mkNode y (hash_of y) w).
  destruct (AddWithWeight_absent_nodes y w r Hnot) as (ix & Hnodes). fold r' ny in Hnodes.
  assert (sorted_nodes (nodes r')) as Hs' by (apply AddWithWeight_sorted; exact Hs).
  assert (forall n, In n (nodes r') <-> n = ny \/ In n (nodes r)) as Hin'.
  { intros n. rewrite Hnodes. apply In_splice. }
  assert (forall n, In n (nodes r) -> name n <> y) as Hold.
  { intros n Hn He. apply Hnot. unfold List. apply in_map_iff. eauto. }
  destruct Htop as [Hx Htop].
  split; [ | split].
  - assert (positive_weights (nodes r')) as Hpos'.
    { intros n Hn. apply Hin' in Hn as [-> | Hn]; [exact Hw | now apply Hpos]. }
    pose proof (ranked_ordered kh (nodes r') (positive_not_nan kh _ Hpos')) as Hord.
    destruct (ranked_nonempty kh (nodes r') ny) as (h & rest & Hr); [apply Hin'; now left | ].
    destruct (ranked_In kh (nodes r') h) as (n & Hn & Hh); [rewrite Hr; now left | ].
    rewrite (Lookup_ranked_head key r' h rest Hr), Hh. cbn [node scored].
    apply Hin' in Hn as [-> | Hn]; [now right | left].
    destruct (String.eqb_spec (name n) (name x)) as [He | Hne]; [now rewrite He | exfalso].
    pose proof (ranked_head_max kh (nodes r') h rest Hord Hr x ltac:(apply Hin'; now right)) as Hmax.
    rewrite Hh in Hmax. cbn [score scored] in Hmax.
    rewrite (Htop n Hn Hne) in Hmax. discriminate.
  - intros Hgt. apply Lookup_top_name; [exact Hs' | ].
    split; [apply Hin'; now right | ].
    intros n Hn Hne. apply Hin' in Hn as [-> | Hn]; [exact Hgt | now apply Htop].
  - intros Hgt. change y with (name ny). apply Lookup_top_name; [exact Hs' | ].
    split; [apply Hin'; now left | ].
    intros n Hn Hne. apply Hin' in Hn as [-> | Hn]; [now elim Hne | ].
    destruct (String.eqb_spec (name n) (name x)) as [He | Hnx].
    + rewrite (names_injective (nodes r) n x (sorted_NoDup _ Hs) Hn Hx He). exact Hgt.
    + apply (gt_trans _ sx); [exact Hgt | now apply Htop].
Qed.

End Positive.

End LookupOrder.

(** ** Membership after an addition *)

Section Additions.

Context {H : Hash64}.

#[local] Open Scope nat_scope.

Lemma Contains_iff nm (r : Ring) : Contains nm r = true <-> In nm (List r).
Proof.
  unfold Contains, List. rewrite existsb_exists, in_map_iff.
  split; intros (n & H1 & H2); exists n.
  - apply String.eqb_eq in H2. auto.
  - split; [exact H2 | now apply String.eqb_eq].
Qed.

Lemma Contains_false_iff nm (r : Ring) : Contains nm r = false <-> ~ In nm (List r).
Proof. rewrite <- Contains_iff. destruct (Contains nm r); split; congruence. Qed.

(** On a sorted ring the node at the search index bears the name as soon
    as any node does. *)
Lemma missed_absent r nm :
  sorted_nodes (nodes r) ->
  (forall n, nodes r !! Search (length (nodes r)) (cmp r nm) = Some n -> name n <> nm) ->
  ~ In nm (List r).
Proof.
  intros Hs Hmiss Hin. destruct (In_List_lookup r nm Hin) as (i & n & Hi & Hn).
  rewrite (Search_found r nm i n Hs Hi Hn) in Hmiss. exact (Hmiss n Hi Hn).
Qed.

Lemma In_insert {A} (l : list A) i (a old m : A) :
  l !! i = Some old ->
  List.NoDup l ->
  (In m (<[i := a]> l) <-> m = a \/ (In m l /\ m <> old)).
Proof.
  intros Hi Hnd.
  rewrite <- (take_drop_middle l i old Hi) at 1.
  rewrite <- (take_drop_middle l i old Hi) in Hnd.
  assert (length (take i l) = i) as Hlen
    by (apply length_take_le; apply lookup_lt_Some in Hi; lia).
  rewrite <- Hlen at 1. rewrite <- (Nat.add_0_r (length (take i l))), insert_app_r.
  simpl. rewrite in_app_iff. simpl.
  assert (In m l <-> In m (take i l) \/ old = m \/ In m (drop (S i) l)) as Hl.
  { rewrite <- (take_drop_middle l i old Hi) at 1. rewrite in_app_iff. simpl. reflexivity. }
  rewrite Hl.
  apply NoDup_remove_2 in Hnd. rewrite in_app_iff in Hnd.
  split.
  - intros [Hm | [Hm | Hm]]; [right | now left | right]; (split; [tauto | ]);
      intros ->; tauto.
  - intros [-> | [[Hm | [Hm | Hm]] Hne]]; try tauto. congruence.
Qed.

Lemma sorted_NoDup_nodes (l : list Node) : sorted_nodes l -> List.NoDup l.
Proof. intros Hs. apply (NoDup_map_inv name). now apply sorted_NoDup. Qed.

(** The node slice of a sorted ring after [AddWithWeight]: the nodes of the
    other names as they were, and one node of the name and the weight given,
    whose hash is the hash of the node that bore the name, or the sum of the
    hasher on the name when there was none. *)
Lemma AddWithWeight_nodes_spec x w r :
  sorted_nodes (nodes r) ->
  exists nx,
    name nx = x /\ weight nx = w /\
    (hash nx = Sum64 (fed r x) \/ exists old, In old (nodes r) /\ name old = x /\ hash nx = hash old) /\
    (forall m, In m (nodes (AddWithWeight x w r)) <->
               m = nx \/ (In m (nodes r) /\ name m <> x)) /\
    length (nodes (AddWithWeight x w r))
    = (if Contains x r then length (nodes r) else S (length (nodes r))).
Proof.
  intros Hs.
  destruct (AddWithWeight_cases r x w) as [(n & Hn & He & ->) | (Hmiss & ->)]; cbn [nodes].
  - exists (mkNode (name n) (hash n) w). cbn [name weight hash].
    assert (In n (nodes r)) as Hin
      by (apply list_elem_of_In; eapply list_elem_of_lookup_2; exact Hn).
    split; [exact He | split; [reflexivity | split; [right; eauto | split]]].
    + intros m. rewrite (In_insert _ _ _ n m Hn (sorted_NoDup_nodes _ Hs)).
      split; (intros [Hm | [Hm Hne]]; [now left | right; split; [exact Hm | ]]).
      * intros Hname. apply Hne.
        apply (names_injective (nodes r) m n (sorted_NoDup _ Hs) Hm Hin). congruence.
      * intros ->. now apply Hne.
    + rewrite length_insert.
      assert (Contains x r = true) as ->; [ | reflexivity].
      apply Contains_iff. unfold List. apply in_map_iff. eauto.
  - exists (mkNode x (Sum64 (fed r x)) w). cbn [name weight hash].
    pose proof (missed_absent r x Hs Hmiss) as Hnot.
    split; [reflexivity | split; [reflexivity | split; [now left | split]]].
    + intros m. rewrite In_splice.
      split; (intros [Hm | Hm]; [now left | right]).
      * split; [exact Hm | ]. intros Hname. apply Hnot. unfold List. apply in_map_iff. eauto.
      * tauto.
    + rewrite length_app. simpl. rewrite length_take, length_drop.
      assert (Contains x r = false) as -> by (now apply Contains_false_iff).
      pose proof (SearchFacts.Search_le (length (nodes r)) (cmp r x)). lia.
Qed.

End Additions.

Section RoundTrip.

Context {H : Hash64}.

#[local] Open Scope nat_scope.

Lemma Weight_member (r : Ring) n :
  sorted_nodes (nodes r) -> In n (nodes r) -> Weight (name n) r = weight n.
Proof.
  intros Hs Hin. apply (proj2 (list_elem_of_In _ _)) in Hin.
  apply list_elem_of_lookup_1 in Hin as [i Hi].
  now apply (Weight_present r (name n) i n).
Qed.

Lemma In_List_AddWithWeight x w (r : Ring) y :
  sorted_nodes (nodes r) ->
  (In y (List (AddWithWeight x w r)) <-> y = x \/ In y (List r)).
Proof.
  intros Hs.
  destruct (AddWithWeight_nodes_spec x w r Hs) as (nx & Hname & _ & _ & Hin & _).
  unfold List. rewrite !in_map_iff. split.
  - intros (m & Hm & Hi). apply Hin in Hi as [-> | [Hi _]]; [left; congruence | right; eauto].
  - intros [-> | (m & Hm & Hi)].
    + exists nx. split; [exact Hname | ]. apply Hin. now left.
    + destruct (String.eqb_spec y x) as [-> | Hne].
      * exists nx. split; [exact Hname | ]. apply Hin. now left.
      * exists m. split; [exact Hm | ]. apply Hin. right. split; [exact Hi | congruence].
Qed.

Lemma AddWithWeight_frame x w (r : Ring) :
  sorted_nodes (nodes r) ->
  let r' := AddWithWeight x w r in
  Contains x r' = true /\
  Weight x r' = w /\
  count_named x (nodes r') = 1 /\
  Len r' = (if Contains x r then Len r else S (Len r)) /\
  (forall y, y <> x -> Contains y r' = Contains y r) /\
  (forall y, y <> x -> Contains y r = true -> Weight y r' = Weight y r).
Proof.
  intros Hs r'.
  pose proof (AddWithWeight_sorted r x w Hs) as Hs'. fold r' in Hs'.
  destruct (AddWithWeight_nodes_spec x w r Hs) as (nx & Hname & Hw & _ & Hin & Hlen).
  fold r' in Hin, Hlen.
  assert (In nx (nodes r')) as Hnx by (apply Hin; now left).
  assert (In x (List r')) as Hx by (apply In_List_AddWithWeight; auto).
  split; [now apply Contains_iff | ].
  split; [rewrite <- Hname, (Weight_member r' nx Hs' Hnx); exact Hw | ].
  split; [apply count_named_once; [now apply sorted_NoDup | exact Hx] | ].
  split; [exact Hlen | ].
  split.
  - intros y Hy.
    pose proof (In_List_AddWithWeight x w r y Hs) as Hiff. fold r' in Hiff.
    rewrite <- !Contains_iff in Hiff.
    destruct (Contains y r'), (Contains y r); try reflexivity.
    + destruct (proj1 Hiff eq_refl); congruence.
    + apply (proj2 Hiff). now right.
  - intros y Hy Hc. apply Contains_iff in Hc. unfold List in Hc.
    apply in_map_iff in Hc as (m & Hm & Hi). subst y.
    rewrite (Weight_member r m Hs Hi). apply (Weight_member r' m Hs').
    apply Hin. right. split; [exact Hi | exact Hy].
Qed.

(** On every ring built by a sequence of calls, [AddWithWeight x w]
    leaves a ring that contains [x], exactly once, at the weight [w]; the
    length grows by one when [x] was absent and stays when it was present;
    every other name is contained as before, and the weight reported for
    every other name that is present is as before. *)
Theorem AddWithWeight_round_trip (h0 : hstate) (cs : list Call) (x : string) (w : float64) :
  let r := run cs (NewWithHash h0) in
  let r' := AddWithWeight x w r in
  Contains x r' = true /\
  Weight x r' = w /\
  count_named x (nodes r') = 1 /\
  Len r' = (if Contains x r then Len r else S (Len r)) /\
  (forall y, y <> x -> Contains y r' = Contains y r) /\
  (forall y, y <> x -> Contains y r = true -> Weight y r' = Weight y r).
Proof.
  intros r. apply AddWithWeight_frame. apply run_sorted. constructor.
Qed.

End RoundTrip.

(** ** The stored hashes *)

Section StoredHashes.

Context {H : Hash64} `{!Hash64Spec H}.

Lemma In_take {A} (l : list A) k a : In a (take k l) -> In a l.
Proof. intros Hin. rewrite <- (take_drop k l). apply in_app_iff. now left. Qed.

Lemma Remove_nodes_sub x (r : Ring) m : In m (nodes (Remove x r)) -> In m (nodes r).
Proof.
  destruct (Remove_cases r x) as [(n & _ & _ & ->) | (_ & ->)]; [ | auto].
  cbn [nodes]. apply In_take.
Qed.

Lemma AddWithWeight_well_hashed x w (r : Ring) :
  sorted_nodes (nodes r) -> well_hashed (nodes r) ->
  well_hashed (nodes (AddWithWeight x w r)).
Proof.
  intros Hs Hwh m Hm.
  destruct (AddWithWeight_nodes_spec x w r Hs) as (nx & Hname & _ & Hhash & Hin & _).
  destruct (proj1 (Hin m) Hm) as [Heq | [Hm' _]]; [ | now apply Hwh].
  rewrite Heq, Hname. destruct Hhash as [-> | (old & Hold & Hn & ->)].
  - apply fed_hash_of.
  - rewrite (Hwh old Hold). now rewrite Hn.
Qed.

Lemma call_well_hashed c (r : Ring) :
  sorted_nodes (nodes r) -> well_hashed (nodes r) -> well_hashed (nodes (call c r)).
Proof.
  intros Hs Hwh. destruct c as [nm | nm w | nm]; simpl.
  - now apply AddWithWeight_well_hashed.
  - now apply AddWithWeight_well_hashed.
  - intros m Hm. apply Hwh. now apply (Remove_nodes_sub nm).
Qed.

Lemma run_well_hashed cs (r : Ring) :
  sorted_nodes (nodes r) -> well_hashed (nodes r) -> well_hashed (nodes (run cs r)).
Proof.
  revert r. induction cs as [ | c cs IH]; intros r Hs Hwh; simpl; [exact Hwh | ].
  apply IH; [now apply call_sorted | now apply call_well_hashed].
Qed.

Lemma reachable_hashes h0 cs : well_hashed (nodes (run cs (NewWithHash h0))).
Proof. apply run_well_hashed; [constructor | intros m []]. Qed.

(** On every ring built by a sequence of calls on a hasher whose
    [Reset] returns to the initial state, the hash stored in each node is the
    hash of that node's name on a fresh hasher, whatever the hasher had been
    fed before the node was added, and [computeHash] of a key returns the
    hash of the key on a fresh hasher and leaves the nodes alone. *)
Theorem stored_hash_is_hash_of_name (h0 : hstate) (cs : list Call) :
  let r := run cs (NewWithHash h0) in
  (forall n, In n (nodes r) -> hash n = hash_of (name n)) /\
  (forall key, fst (computeHash key r) = hash_of key /\
               nodes (snd (computeHash key r)) = nodes r).
Proof.
  intros r. split; [apply reachable_hashes | ].
  intros key. split; [ | reflexivity]. apply (fed_hash_of r key).
Qed.

Lemma combineHashes_same a : combineHashes a a = 0%Z.
Proof. unfold combineHashes. rewrite Z.lxor_nilpotent. reflexivity. Qed.

End StoredHashes.

Section OwnName.

Context {H : Hash64} {L : MathLog} {S : SortSlice}.
Context `{!Hash64Spec H} `{!MathLogSpec L} `{!SortSliceSpec S}.

(** A key that is the name of a node hashes to that node's stored
    hash, the combined hash is 0 and the node scores [+0] for it, the lowest
    score a finite weight above 0 can have: on a ring built by a sequence of
    calls whose weights are finite and above 0, [Lookup] of a node's own name
    does not return that node as soon as one node scores above 0 for it. *)
Theorem Lookup_own_name (h0 : hstate) (cs : list Call) (n m : Node) :
  let r := run cs (NewWithHash h0) in
  positive_weights (nodes r) ->
  In n (nodes r) ->
  combineHashes (hash_of (name n)) (hash n) = 0%Z /\
  score_for (hash_of (name n)) n = F64.pzero /\
  (In m (nodes r) ->
   F64.gt (score_for (hash_of (name n)) m) F64.pzero = true ->
   fst (Lookup (name n) r) <> Ok (name n)).
Proof.
  intros r Hpos Hn.
  pose proof (reachable_hashes h0 cs n Hn) as Hh.
  assert (sorted_nodes (nodes r)) as Hs by (apply run_sorted; constructor).
  assert (score_for (hash_of (name n)) n = F64.pzero) as Hscore.
  { unfold score_for. apply computeScore_at_zero; [now apply Hpos | ].
    rewrite Hh. apply combineHashes_same. }
  split; [rewrite Hh; apply combineHashes_same | ].
  split; [exact Hscore | ].
  intros Hm Hgt Hres.
  destruct (ranked_nonempty (hash_of (name n)) (nodes r) n Hn) as (h & rest & Hr).
  rewrite (Lookup_ranked_head (name n) r h rest Hr) in Hres.
  assert (In h (ranked (hash_of (name n)) (nodes r))) as Hhin by (rewrite Hr; now left).
  apply ranked_In in Hhin as (n' & Hn' & ->). cbn [scored node] in Hres.
  assert (n' = n) as ->.
  { apply (names_injective (nodes r)); auto; [now apply sorted_NoDup | congruence]. }
  pose proof (ranked_head_max (hash_of (name n)) (nodes r) _ rest
                (ranked_ordered _ _ (positive_not_nan _ _ Hpos)) Hr m Hm) as Hmax.
  cbn [scored score] in Hmax. rewrite Hscore in Hmax. congruence.
Qed.

End OwnName.

(** ** Rings built by additions only *)

Section AddOnly.

Context {H : Hash64}.

#[local] Open Scope nat_scope.

Lemma call_add c (r : Ring) :
  is_add c = true -> call c r = AddWithWeight (call_name c) (call_weight c) r.
Proof. destruct c; simpl; [reflexivity | reflexivity | discriminate]. Qed.

Lemma find_node_Some y l n :
  List.NoDup (map name l) -> (find_node y l = Some n <-> In n l /\ name n = y).
Proof.
  intros Hnd. unfold find_node. split.
  - intros Hf. apply find_some in Hf as [Hin He]. now apply String.eqb_eq in He.
  - intros [Hin Hn]. induction l as [ | a l IH]; [destruct Hin | ].
    simpl in Hnd. apply NoDup_cons_iff in Hnd as [Ha Hnd]. simpl.
    destruct (String.eqb_spec (name a) y) as [He | Hne].
    + destruct Hin as [-> | Hin]; [reflexivity | ].
      elim Ha. rewrite He, <- Hn. now apply in_map.
    + destruct Hin as [-> | Hin]; [contradiction | ]. now apply IH.
Qed.

Lemma find_node_None y l : find_node y l = None <-> forall n, In n l -> name n <> y.
Proof.
  unfold find_node. split.
  - intros Hf n Hin Hn. apply (find_none _ _ Hf) in Hin.
    apply String.eqb_neq in Hin. contradiction.
  - intros Hall. induction l as [ | a l IH]; [reflexivity | ]. simpl.
    destruct (String.eqb_spec (name a) y) as [He | Hne].
    + elim (Hall a); [now left | exact He].
    + apply IH. intros n Hn. apply Hall. now right.
Qed.

(** The weight held for a name after [AddWithWeight]: the weight given for
    the name added, the weight held before for any other name. *)
Lemma AddWithWeight_weight_of x w (r : Ring) y :
  sorted_nodes (nodes r) ->
  option_map weight (find_node y (nodes (AddWithWeight x w r)))
  = if String.eqb x y then Some w
    else option_map weight (find_node y (nodes r)).
Proof.
  intros Hs.
  pose proof (sorted_NoDup _ (AddWithWeight_sorted r x w Hs)) as Hnd'.
  destruct (AddWithWeight_nodes_spec x w r Hs) as (nx & Hname & Hw & _ & Hin & _).
  destruct (String.eqb_spec x y) as [<- | Hne].
  - rewrite (proj2 (find_node_Some x _ nx Hnd')); [simpl; now rewrite Hw | ].
    split; [apply Hin; now left | exact Hname].
  - destruct (find_node y (nodes r)) as [n | ] eqn:Hf.
    + apply (find_node_Some y _ n (sorted_NoDup _ Hs)) in Hf as [Hn Hy].
      rewrite (proj2 (find_node_Some y _ n Hnd')); [reflexivity | ].
      split; [ | exact Hy]. apply Hin. right. split; [exact Hn | congruence].
    + rewrite (proj2 (find_node_None y _)); [reflexivity | ].
      intros m Hm. destruct (proj1 (Hin m) Hm) as [Heq | [Hm' _]].
      * rewrite Heq, Hname. exact Hne.
      * now apply (proj1 (find_node_None y _) Hf).
Qed.

Lemma last_weight_from x cs acc :
  fold_left (fun a c => if String.eqb (call_name c) x then Some (call_weight c) else a) cs acc
  = match last_weight x cs with
    | Some w => Some w
    | None => acc
    end.
Proof.
  unfold last_weight. revert acc.
  induction cs as [ | c cs IH]; intros acc; simpl; [reflexivity | ].
  rewrite (IH (if String.eqb (call_name c) x then Some (call_weight c) else acc)).
  rewrite (IH (if String.eqb (call_name c) x then Some (call_weight c) else None)).
  destruct (fold_left _ cs None); [reflexivity | ].
  destruct (String.eqb (call_name c) x); reflexivity.
Qed.

Lemma run_adds_weight_of cs (r : Ring) x :
  forallb is_add cs = true -> sorted_nodes (nodes r) ->
  option_map weight (find_node x (nodes (run cs r)))
  = match last_weight x cs with
    | Some w => Some w
    | None => option_map weight (find_node x (nodes r))
    end.
Proof.
  rewrite <- last_weight_from. revert r.
  induction cs as [ | c cs IH]; intros r Hadd Hs; simpl; [reflexivity | ].
  simpl in Hadd. apply andb_true_iff in Hadd as [Hc Hadd].
  rewrite (IH (call c r) Hadd (call_sorted c r Hs)).
  rewrite (call_add c r Hc), (AddWithWeight_weight_of _ _ r x Hs).
  reflexivity.
Qed.

Lemma adds_weight_of h0 cs x :
  forallb is_add cs = true ->
  option_map weight (find_node x (nodes (run cs (NewWithHash h0)))) = last_weight x cs.
Proof.
  intros Hadd. rewrite (run_adds_weight_of cs _ x Hadd) by constructor.
  simpl. now destruct (last_weight x cs).
Qed.

Lemma last_weight_names x cs :
  last_weight x cs <> None <-> In x (map call_name cs).
Proof.
  induction cs as [ | c cs IH] using rev_ind;
    [unfold last_weight; simpl; split; [intros Hn; now elim Hn | intros []] | ].
  unfold last_weight in *. rewrite fold_left_app, map_app, in_app_iff. simpl.
  destruct (String.eqb_spec (call_name c) x) as [He | Hne].
  - split; [intros _; right; now left | congruence].
  - rewrite IH. tauto.
Qed.

(** On a ring built from an empty ring by [Add] and [AddWithWeight]
    calls only, a name is contained exactly when some call named it, and the
    weight reported for it is the weight of the last call that named it (1.0
    for [Add]): an addition of a present name overwrites its weight, also
    with the default weight. *)
Theorem Weight_last_write (h0 : hstate) (cs : list Call) (x : string) :
  forallb is_add cs = true ->
  let r := run cs (NewWithHash h0) in
  (Contains x r = true <-> In x (map call_name cs)) /\
  (forall w, last_weight x cs = Some w -> Contains x r = true /\ Weight x r = w) /\
  (last_weight x cs = None -> Contains x r = false).
Proof.
  intros Hadd r.
  assert (sorted_nodes (nodes r)) as Hs by (apply run_sorted; constructor).
  pose proof (adds_weight_of h0 cs x Hadd) as Hw. fold r in Hw.
  assert (forall w, last_weight x cs = Some w -> Contains x r = true /\ Weight x r = w) as Hsome.
  { intros w Hl. rewrite Hl in Hw.
    destruct (find_node x (nodes r)) as [n | ] eqn:Hf; [ | discriminate].
    apply (find_node_Some x _ n (sorted_NoDup _ Hs)) in Hf as [Hn Hx].
    split.
    - apply Contains_iff. unfold List. apply in_map_iff. eauto.
    - rewrite <- Hx, (Weight_member r n Hs Hn). simpl in Hw. congruence. }
  assert (last_weight x cs = None -> Contains x r = false) as Hnone.
  { intros Hl. rewrite Hl in Hw.
    destruct (find_node x (nodes r)) as [n | ] eqn:Hf; [discriminate | ].
    apply Contains_false_iff. unfold List. intros Hin.
    apply in_map_iff in Hin as (n & Hx & Hn).
    exact (proj1 (find_node_None x _) Hf n Hn Hx). }
  split; [ | split; assumption].
  rewrite <- last_weight_names.
  destruct (last_weight x cs) as [w | ].
  - split; [congruence | intros _; now apply (Hsome w)].
  - rewrite (Hnone eq_refl). split; [discriminate | congruence].
Qed.

Lemma sorted_ext {A} (R : A -> A -> Prop) (l1 l2 : list A) :
  (forall a, ~ R a a) -> (forall a b c, R a b -> R b c -> R a c) ->
  StronglySorted R l1 -> StronglySorted R l2 ->
  (forall a, In a l1 <-> In a l2) -> l1 = l2.
Proof.
  intros Hirr Htr. revert l2.
  induction l1 as [ | a l1 IH]; intros l2 H1 H2 Hiff.
  - destruct l2 as [ | b l2]; [reflexivity | ]. elim (proj2 (Hiff b)). now left.
  - destruct l2 as [ | b l2]; [elim (proj1 (Hiff a)); now left | ].
    apply StronglySorted_cons in H1 as [Ha H1]. apply StronglySorted_cons in H2 as [Hb H2].
    rewrite Forall_forall in Ha, Hb.
    assert (a = b) as <-.
    { destruct (proj1 (Hiff a) (or_introl eq_refl)) as [Hab | Hab]; [now symmetry | ].
      destruct (proj2 (Hiff b) (or_introl eq_refl)) as [Hba | Hba]; [exact Hba | ].
      apply (proj2 (list_elem_of_In _ _)) in Hab, Hba.
      elim (Hirr a). apply (Htr a b a); [now apply Ha | now apply Hb]. }
    f_equal. apply IH; auto. intros x. split; intros Hx.
    + destruct (proj1 (Hiff x) (or_intror Hx)) as [<- | Hx2]; [ | exact Hx2].
      elim (Hirr a). apply Ha. now apply list_elem_of_In.
    + destruct (proj2 (Hiff x) (or_intror Hx)) as [<- | Hx1]; [ | exact Hx1].
      elim (Hirr a). apply Hb. now apply list_elem_of_In.
Qed.

Lemma node_lt_irrefl n : ~ node_lt n n.
Proof. unfold node_lt. now rewrite StrOrdFacts.ltb_irrefl. Qed.

Lemma node_lt_trans a b c : node_lt a b -> node_lt b c -> node_lt a c.
Proof. unfold node_lt. apply StrOrdFacts.lt_trans. Qed.

Lemma str_lt_irrefl s : ~ StrOrd.lt s s.
Proof. unfold StrOrd.lt. now rewrite StrOrdFacts.ltb_irrefl. Qed.

Lemma In_List_run_adds cs (r : Ring) y :
  forallb is_add cs = true -> sorted_nodes (nodes r) ->
  (In y (List (run cs r)) <-> In y (map call_name cs) \/ In y (List r)).
Proof.
  revert r. induction cs as [ | c cs IH]; intros r Hadd Hs; simpl; [tauto | ].
  simpl in Hadd. apply andb_true_iff in Hadd as [Hc Hadd].
  rewrite (IH (call c r) Hadd (call_sorted c r Hs)).
  rewrite (call_add c r Hc), (In_List_AddWithWeight _ _ r y Hs).
  intuition congruence.
Qed.

Lemma member_by_weight `{!Hash64Spec H} h0 cs m :
  forallb is_add cs = true ->
  (In m (nodes (run cs (NewWithHash h0)))
   <-> hash m = hash_of (name m) /\ last_weight (name m) cs = Some (weight m)).
Proof.
  intros Hadd. set (r := run cs (NewWithHash h0)).
  assert (sorted_nodes (nodes r)) as Hs by (apply run_sorted; constructor).
  pose proof (adds_weight_of h0 cs (name m) Hadd) as Hw. fold r in Hw.
  pose proof (reachable_hashes h0 cs) as Hwh. fold r in Hwh.
  split.
  - intros Hm. split; [now apply Hwh | ].
    rewrite <- Hw, (proj2 (find_node_Some (name m) _ m (sorted_NoDup _ Hs))); auto.
  - intros [Hh Hl]. rewrite Hl in Hw.
    destruct (find_node (name m) (nodes r)) as [n | ] eqn:Hf; [ | discriminate].
    apply (find_node_Some _ _ n (sorted_NoDup _ Hs)) in Hf as [Hn Hx].
    simpl in Hw. pose proof (Hwh n Hn) as Hhn.
    assert (n = m) as <-; [ | exact Hn].
    destruct n as [nn hn wn], m as [nm hm wm]. simpl in *. congruence.
Qed.

(** The ring that [Add] and [AddWithWeight] calls build from an empty
    ring does not depend on their order beyond the last weight given to each
    name: two sequences that name the same names leave the same [List], and
    two sequences that give each name the same last weight leave the same
    node slice, names, hashes and weights, whatever the two hashers had been
    fed before. *)
Theorem adds_order_independent `{!Hash64Spec H} (h1 h2 : hstate) (cs1 cs2 : list Call) :
  forallb is_add cs1 = true -> forallb is_add cs2 = true ->
  let r1 := run cs1 (NewWithHash h1) in
  let r2 := run cs2 (NewWithHash h2) in
  ((forall x, In x (map call_name cs1) <-> In x (map call_name cs2)) -> List r1 = List r2) /\
  ((forall x, last_weight x cs1 = last_weight x cs2) -> nodes r1 = nodes r2).
Proof.
  intros Hadd1 Hadd2 r1 r2.
  assert (sorted_nodes (nodes r1)) as Hs1 by (apply run_sorted; constructor).
  assert (sorted_nodes (nodes r2)) as Hs2 by (apply run_sorted; constructor).
  split.
  - intros Hnames.
    apply (sorted_ext StrOrd.lt); [exact str_lt_irrefl | exact StrOrdFacts.lt_trans | | | ].
    + now apply sorted_nodes_names.
    + now apply sorted_nodes_names.
    + intros x. unfold r1, r2.
      rewrite (In_List_run_adds cs1 _ x Hadd1) by constructor.
      rewrite (In_List_run_adds cs2 _ x Hadd2) by constructor.
      rewrite Hnames. reflexivity.
  - intros Hlast.
    apply (sorted_ext node_lt); [exact node_lt_irrefl | exact node_lt_trans | exact Hs1 | exact Hs2 | ].
    intros m. unfold r1, r2.
    rewrite (member_by_weight h1 cs1 m Hadd1), (member_by_weight h2 cs2 m Hadd2), Hlast.
    reflexivity.
Qed.

End AddOnly.

(** ** An addition undone *)

Section AddRemove.

Context {H : Hash64}.

#[local] Open Scope nat_scope.

Lemma Add_then_Remove_nodes x w (r : Ring) :
  sorted_nodes (nodes r) -> ~ In x (List r) ->
  let ix := Search (length (nodes r)) (cmp r x) in
  let nx := mkNode x (Sum64 (fed r x)) w in
  ix <= length (nodes r) /\
  sorted_nodes (take ix (nodes r) ++ nx :: drop ix (nodes r)) /\
  nodes (Remove x (AddWithWeight x w r))
  = take (length (nodes r)) (take ix (nodes r) ++ nx :: drop ix (nodes r)).
Proof.
  intros Hs Hnot ix nx.
  assert (forall n, nodes r !! ix = Some n -> name n <> x) as Hmiss.
  { intros n Hn He. apply Hnot. unfold List. apply in_map_iff. exists n.
    split; [exact He | ]. apply list_elem_of_In. eapply list_elem_of_lookup_2. exact Hn. }
  pose proof (SearchFacts.Search_le (length (nodes r)) (cmp r x)) as Hle. fold ix in Hle.
  pose proof (AddWithWeight_sorted r x w Hs) as Hs1.
  pose proof (In_List_AddWithWeight x w r x Hs) as Hx.
  rewrite (AddWithWeight_splice r x w Hmiss) in *. fold ix nx in Hs1, Hx |- *.
  cbn [nodes] in Hs1.
  split; [exact Hle | split; [exact Hs1 | ]].
  rewrite Remove_present; [ | exact Hs1 | apply Hx; now left].
  cbn [nodes]. f_equal.
  rewrite length_app. simpl. rewrite length_take, length_drop. lia.
Qed.

(** [Remove] does not undo [AddWithWeight].  On a ring built by a sequence
    of calls that does not contain [x], adding [x] and removing it again
    gives the ring back only when [x] sorts after every name of the ring;
    when some name sorts after [x], the ring still contains [x] and has lost
    another of its names.  The length is back to what it was either way. *)
Theorem Add_then_Remove (h0 : hstate) (cs : list Call) (x : string) (w : float64) :
  let r := run cs (NewWithHash h0) in
  let r' := Remove x (AddWithWeight x w r) in
  Contains x r = false ->
  Len r' = Len r /\
  ((forall y, In y (List r) -> StrOrd.lt y x) -> nodes r' = nodes r) /\
  (forall y, In y (List r) -> StrOrd.lt x y ->
     Contains x r' = true /\ exists z, In z (List r) /\ Contains z r' = false).
Proof.
  intros r r' Hc. apply Contains_false_iff in Hc.
  assert (sorted_nodes (nodes r)) as Hs by (apply run_sorted; constructor).
  destruct (Add_then_Remove_nodes x w r Hs Hc) as (Hle & Hs1 & Hnodes). fold r' in Hnodes.
  destruct (Search_sorted r x Hs) as (_ & Hlo & Hhi).
  set (ix := Search (length (nodes r)) (cmp r x)) in *.
  set (nx := mkNode x (Sum64 (fed r x)) w) in *.
  split; [ | split].
  - unfold Len. rewrite Hnodes, length_take, length_app. simpl.
    rewrite length_take, length_drop. lia.
  - intros Hbelow. rewrite Hnodes.
    assert (ix = length (nodes r)) as ->.
    { destruct (Nat.eq_dec ix (length (nodes r))) as [He | Hne]; [exact He | exfalso].
      destruct (lookup_lt_is_Some_2 (nodes r) ix) as [n Hn]; [lia | ].
      pose proof (Hhi ix n (Nat.le_refl _) Hn) as Hge.
      assert (StrOrd.lt (name n) x) as Hlt.
      { apply Hbelow. unfold List. apply in_map. apply list_elem_of_In.
        eapply list_elem_of_lookup_2. exact Hn. }
      unfold StrOrd.lt in Hlt. congruence. }
    rewrite (take_ge (nodes r)), (drop_ge (nodes r)) by lia. apply take_app_length.
  - intros y Hy Hxy.
    destruct (In_List_lookup r y Hy) as (k & m & Hk & Hm).
    assert (ix <= k) as Hik.
    { destruct (Nat.lt_ge_cases k ix) as [Hlt | Hge]; [exfalso | exact Hge].
      pose proof (Hlo k m Hlt Hk) as Hmx. rewrite Hm in Hmx.
      pose proof (StrOrdFacts.lt_trans _ _ _ Hxy Hmx) as Hxx.
      unfold StrOrd.lt in Hxx. rewrite StrOrdFacts.ltb_irrefl in Hxx. discriminate. }
    pose proof (lookup_lt_Some _ _ _ Hk) as Hklen.
    destruct (exists_last (l := nodes r)) as (l0 & zl & Hl).
    { intros He. rewrite He in Hk. discriminate. }
    assert (length (nodes r) = S (length l0)) as Hlen
      by (rewrite Hl, length_app; simpl; lia).
    assert (take ix (nodes r) ++ nx :: drop ix (nodes r)
            = (take ix l0 ++ nx :: drop ix l0) ++ [zl]) as Hsplice.
    { rewrite Hl, take_app_le, drop_app_le by lia. now rewrite <- app_assoc. }
    assert (nodes r' = take ix l0 ++ nx :: drop ix l0) as Hr'.
    { rewrite Hnodes, Hsplice.
      replace (length (nodes r)) with (length (take ix l0 ++ nx :: drop ix l0)).
      - apply take_app_length.
      - rewrite length_app. simpl. rewrite length_take, length_drop. lia. }
    split.
    + apply Contains_iff. unfold List. rewrite Hr'. apply in_map_iff. exists nx.
      split; [reflexivity | ]. apply in_or_app. right. now left.
    + exists (name zl). split.
      * unfold List. apply in_map. rewrite Hl. apply in_or_app. right. now left.
      * apply Contains_false_iff. unfold List. rewrite Hr'.
        rewrite Hsplice in Hs1. apply sorted_NoDup in Hs1.
        rewrite map_app in Hs1. apply NoDup_remove_2 in Hs1.
        rewrite app_nil_r in Hs1. exact Hs1.
Qed.

End AddRemove.

(** ** Lookups that overlap *)

Section OverlappingLookups.

Context {H : Hash64} {L : MathLog} {S : SortSlice}.
Context `{!Hash64Spec H} `{!SortSliceSpec S}.

(** A reader that makes its three calls on the hasher with no other call
    between them returns what [LookupAll] returns. *)
Lemma overlap_alone (r : Ring) key1 key2 :
  reader1 (overlap r key1 key2 alone) = Returned (fst (LookupAll key1 r)).
Proof.
  unfold overlap, alone. cbn [fold_left readers_step reader_step shared reader1 reader2].
  rewrite LookupAll_unfold. cbn [fst]. reflexivity.
Qed.

(** A reader whose [Sum64] comes after another reader's [Reset] and
    [io.WriteString] ranks the nodes for the other reader's key. *)
Lemma overlap_interleaved (r : Ring) key1 key2 :
  reader1 (overlap r key1 key2 interleaved) = Returned (fst (LookupAll key2 r)) /\
  reader2 (overlap r key1 key2 interleaved) = Returned (fst (LookupAll key2 r)).
Proof.
  unfold overlap, interleaved.
  cbn [fold_left readers_step reader_step shared reader1 reader2].
  rewrite LookupAll_unfold. cbn [fst]. unfold fed. rewrite !Reset_initial. split; reflexivity.
Qed.

Lemma LookupAll_head_strict_top key (r : Ring) x :
  sorted_nodes (nodes r) -> strict_top (hash_of key) x (nodes r) ->
  hd_error (fst (LookupAll key r)) = Some (name x).
Proof.
  intros Hs Htop.
  destruct (ranked_head_strict_top (hash_of key) (nodes r) x (sorted_NoDup _ Hs) Htop)
    as (h & rest & Hr & Hname).
  rewrite LookupAll_ranked, Hr. simpl. now rewrite Hname.
Qed.

(** C9.  Two successive calls of [LookupAll] with the same key on a ring
    that no call changes do not always return the same list.  The first call
    runs alone and returns the ranking for its key, with the node that scores
    highest for the key at its head.  The second call overlaps the lookup of
    another key by another goroutine, which the read lock allows: the other
    goroutine resets and feeds the shared hasher after the second call has
    fed it and before it takes the sum, so the second call ranks the nodes
    for the other key, and returns a list with another node at its head.
    The node slice is the same throughout. *)
Theorem LookupAll_overlapping_readers (r : Ring) (key1 key2 : string) (x y : Node) :
  sorted_nodes (nodes r) ->
  strict_top (hash_of key1) x (nodes r) ->
  strict_top (hash_of key2) y (nodes r) ->
  name x <> name y ->
  let names := fst (LookupAll key1 r) in
  let r1 := snd (LookupAll key1 r) in
  nodes r1 = nodes r /\
  reader1 (overlap r1 key1 key2 alone) = Returned names /\
  reader1 (overlap r1 key1 key2 interleaved) = Returned (fst (LookupAll key2 r)) /\
  reader2 (overlap r1 key1 key2 interleaved) = Returned (fst (LookupAll key2 r)) /\
  hd_error names = Some (name x) /\
  hd_error (fst (LookupAll key2 r)) = Some (name y) /\
  reader1 (overlap r1 key1 key2 interleaved) <> Returned names.
Proof.
  intros Hs Hx Hy Hxy names r1.
  assert (forall key, fst (LookupAll key r1) = fst (LookupAll key r)) as Hsame.
  { intros key. rewrite !LookupAll_unfold. cbn [fst]. unfold r1.
    rewrite LookupAll_nodes. now rewrite (fed_again key _ r). }
  pose proof (LookupAll_head_strict_top key1 r x Hs Hx) as Hhx. fold names in Hhx.
  pose proof (LookupAll_head_strict_top key2 r y Hs Hy) as Hhy.
  destruct (overlap_interleaved r1 key1 key2) as [H1 H2]. rewrite Hsame in H1, H2.
  split; [reflexivity | ].
  split; [rewrite overlap_alone; now rewrite Hsame | ].
  split; [exact H1 | split; [exact H2 | split; [exact Hhx | split; [exact Hhy | ]]]].
  rewrite H1. intros He. clearbody names. congruence.
Qed.

End OverlappingLookups.

(** ** Instances of the theorems on lookups and additions *)

Module OrderWitnesses.

Import FNV Samples OnFNV.

#[local] Existing Instance SignLog.mathlog.
#[local] Existing Instance InsertionSort.sorter.
#[local] Existing Instance SignLogFacts.mathlog_spec.
#[local] Existing Instance InsertionSortFacts.sorter_spec.

(** With the sign-only logarithm the score of a node is its weight wherever
    the normalised hash lies in (0, 1): for the key foo, a (2.0) scores above
    b (1.0). *)
Lemma a2_strict_top : strict_top (hash_of "foo") node_a2 (nodes ring_a2_b1).
Proof.
  split; [vm_compute; auto | ].
  intros n Hn Hne. vm_compute in Hn. destruct Hn as [<- | [<- | []]].
  - now elim Hne.
  - vm_compute. reflexivity.
Qed.

Lemma a2_b1_sorted : sorted_nodes (nodes ring_a2_b1).
Proof. vm_compute. repeat constructor. Qed.

Lemma a2_b1_positive : positive_weights (nodes ring_a2_b1).
Proof.
  intros n Hn. vm_compute in Hn. destruct Hn as [<- | [<- | []]]; vm_compute; reflexivity.
Qed.

(** A key that is the name of a node: the node scores [+0] for it, and the
    other node scores above, with every logarithm that is negative on
    (0, 1). *)
Lemma a1_b2_sorted : sorted_nodes (nodes ring_a1_b2).
Proof. vm_compute. repeat constructor. Qed.

Lemma b2_top_for_a : strict_top (hash_of "a") node_b2 (nodes ring_a1_b2).
Proof.
  split; [vm_compute; auto | ].
  intros n Hn Hne. vm_compute in Hn. destruct Hn as [<- | [<- | []]].
  - vm_compute. reflexivity.
  - now elim Hne.
Qed.

Lemma a_top_for_b : strict_top (hash_of "b") node_a (nodes ring_a1_b2).
Proof.
  split; [vm_compute; auto | ].
  intros n Hn Hne. vm_compute in Hn. destruct Hn as [<- | [<- | []]].
  - now elim Hne.
  - vm_compute. reflexivity.
Qed.

Lemma Lookup_strict_top_witness :
  fst (Lookup "a" ring_a1_b2) = Ok "b" /\
  hd_error (fst (LookupAll "a" ring_a1_b2)) = Some "b".
Proof.
  exact (Lookup_strict_top "a" ring_a1_b2 node_b2 a1_b2_sorted b2_top_for_a).
Defined.

Lemma LookupAll_overlapping_readers_witness :
  let names := fst (LookupAll "a" ring_a1_b2) in
  let r1 := snd (LookupAll "a" ring_a1_b2) in
  nodes r1 = nodes ring_a1_b2 /\
  reader1 (overlap r1 "a" "b" alone) = Returned names /\
  reader1 (overlap r1 "a" "b" interleaved) = Returned (fst (LookupAll "b" ring_a1_b2)) /\
  reader2 (overlap r1 "a" "b" interleaved) = Returned (fst (LookupAll "b" ring_a1_b2)) /\
  hd_error names = Some "b" /\
  hd_error (fst (LookupAll "b" ring_a1_b2)) = Some "a" /\
  reader1 (overlap r1 "a" "b" interleaved) <> Returned names.
Proof.
  apply (LookupAll_overlapping_readers ring_a1_b2 "a" "b" node_b2 node_a).
  - exact a1_b2_sorted.
  - exact b2_top_for_a.
  - exact a_top_for_b.
  - vm_compute. discriminate.
Defined.

Lemma Remove_keeps_lookup_unless_last_witness :
  fst (Lookup "foo" ring_a2_b1) = Ok "a" /\
  fst (Lookup "foo" (Remove "a" ring_a2_b1)) = Ok "a" /\
  Contains "a" (Remove "a" ring_a2_b1) = true.
Proof.
  apply (Remove_keeps_lookup_unless_last "foo" "a" ring_a2_b1 node_a2 node_b [node_a2]).
  - exact a2_b1_sorted.
  - vm_compute. reflexivity.
  - vm_compute. auto.
  - exact a2_strict_top.
  - vm_compute. discriminate.
Defined.

Lemma LookupAll_descending_witness :
  let r := ring_a2_b1 in
  let kh := hash_of "foo" in
  fst (LookupAll "foo" r) = map (fun sn => name (node sn)) (ranked kh (nodes r)) /\
  Permutation (ranked kh (nodes r)) (map (scored kh) (nodes r)) /\
  (forall i j a b, (i < j)%nat ->
     ranked kh (nodes r) !! i = Some a -> ranked kh (nodes r) !! j = Some b ->
     F64.gt (score b) (score a) = false) /\
  (nodes r <> [] ->
   exists top, In top (nodes r) /\ fst (Lookup "foo" r) = Ok (name top) /\
     forall n, In n (nodes r) -> F64.gt (score_for kh n) (score_for kh top) = false).
Proof. exact (LookupAll_descending "foo" ring_a2_b1 a2_b1_positive). Defined.

Lemma AddWithWeight_moves_lookup_only_to_new_node_witness :
  let r' := AddWithWeight "c" defaultWeight ring_a2_b1 in
  let sx := score_for (hash_of "foo") node_a2 in
  let sy := computeScore (hash_of "foo") (hash_of "c") defaultWeight in
  F64.gt sx sy = true /\
  (fst (Lookup "foo" r') = Ok "a" \/ fst (Lookup "foo" r') = Ok "c") /\
  (F64.gt sx sy = true -> fst (Lookup "foo" r') = Ok "a") /\
  (F64.gt sy sx = true -> fst (Lookup "foo" r') = Ok "c").
Proof.
  split; [vm_compute; reflexivity | ].
  apply (AddWithWeight_moves_lookup_only_to_new_node "foo" "c" defaultWeight ring_a2_b1 node_a2).
  - exact a2_b1_sorted.
  - exact a2_b1_positive.
  - vm_compute. reflexivity.
  - vm_compute. intros [Hc | [Hc | []]]; discriminate.
  - exact a2_strict_top.
Defined.

Lemma stored_hash_is_hash_of_name_witness :
  let r := run calls_b_a_b2 (NewWithHash (H := New64a) 5) in
  (forall n, In n (nodes r) -> hash n = hash_of (name n)) /\
  (forall key, fst (computeHash key r) = hash_of key /\
               nodes (snd (computeHash key r)) = nodes r).
Proof. exact (stored_hash_is_hash_of_name (H := New64a) 5 calls_b_a_b2). Defined.

Lemma Lookup_own_name_witness :
  let r := run calls_a_b2 (NewWithHash (H := New64a) offset64) in
  F64.gt (score_for (hash_of "a") node_b2) F64.pzero = true /\
  combineHashes (hash_of "a") (hash node_a) = 0 /\
  score_for (hash_of "a") node_a = F64.pzero /\
  (In node_b2 (nodes r) ->
   F64.gt (score_for (hash_of "a") node_b2) F64.pzero = true ->
   fst (Lookup "a" r) <> Ok "a").
Proof.
  split; [vm_compute; reflexivity | ].
  apply (Lookup_own_name (H := New64a) offset64 calls_a_b2 node_a node_b2).
  - intros n Hn. vm_compute in Hn. destruct Hn as [<- | [<- | []]]; vm_compute; reflexivity.
  - vm_compute. auto.
Defined.

Lemma Weight_last_write_witness :
  let r := run calls_b_a_b2 (NewWithHash (H := New64a) offset64) in
  last_weight "b" calls_b_a_b2 = Some w2 /\
  (Contains "b" r = true <-> In "b" (map call_name calls_b_a_b2)) /\
  (forall w, last_weight "b" calls_b_a_b2 = Some w -> Contains "b" r = true /\ Weight "b" r = w) /\
  (last_weight "b" calls_b_a_b2 = None -> Contains "b" r = false).
Proof.
  split; [vm_compute; reflexivity | ].
  apply (Weight_last_write (H := New64a) offset64 calls_b_a_b2 "b"). reflexivity.
Defined.

Lemma adds_order_independent_witness :
  let r1 := run calls_a_b2 (NewWithHash (H := New64a) offset64) in
  let r2 := run calls_b_a_b2 (NewWithHash (H := New64a) 5) in
  (forall x, last_weight x calls_a_b2 = last_weight x calls_b_a_b2) /\
  ((forall x, In x (map call_name calls_a_b2) <-> In x (map call_name calls_b_a_b2)) ->
   List r1 = List r2) /\
  ((forall x, last_weight x calls_a_b2 = last_weight x calls_b_a_b2) -> nodes r1 = nodes r2).
Proof.
  split.
  - intros x. unfold last_weight, calls_a_b2, calls_b_a_b2.
    cbn [fold_left call_name call_weight].
    destruct (String.eqb "b" x), (String.eqb "a" x); reflexivity.
  - apply (adds_order_independent (H := New64a) offset64 5 calls_a_b2 calls_b_a_b2);
      reflexivity.
Defined.

Lemma Add_then_Remove_witness :
  let r := run [CallAdd "a"; CallAdd "c"] (NewWithHash (H := New64a) offset64) in
  let r' := Remove "b" (AddWithWeight "b" w2 r) in
  Contains "b" r = false /\
  Len r' = Len r /\
  ((forall y, In y (List r) -> StrOrd.lt y "b") -> nodes r' = nodes r) /\
  (forall y, In y (List r) -> StrOrd.lt "b" y ->
     Contains "b" r' = true /\ exists z, In z (List r) /\ Contains z r' = false).
Proof.
  split; [vm_compute; reflexivity | ].
  apply (Add_then_Remove (H := New64a) offset64 [CallAdd "a"; CallAdd "c"] "b" w2).
  vm_compute. reflexivity.
Defined.

End OrderWitnesses.
